(** * exmapacidade: breadth-first route search on a city grid

    A shallow embedding of [src/exmapacidade.py]: the route search
    [encontrar_melhor_rota], the classification matrices that
    [plotar_mapa_snapshot] and [plotar_mapa_final] hand to the renderer,
    and the script that runs them.

    Python values are modelled as follows.
    - a cell marker (a one-character string) is an [ascii];
    - the map (a list of lists) is a [list (list ascii)];
    - an [int] is a [Z]; a coordinate tuple [(r, c)] is a pair of [Z];
    - a [set] of coordinates is a [gset (Z * Z)], so that [==] on sets is
      Leibniz equality and [in] on a list of sets is decidable;
    - the [deque] is a list, [popleft] takes its head and [append] adds at
      its end;
    - an [IndexError] raised by a subscript is the [IndexError] outcome of
      the [res] monad; running out of loop fuel is [OutOfFuel], which the
      development proves is never the outcome of a search. *)

From Stdlib Require Import ZArith Ascii Lia.
From stdpp Require Import base option list sorting gmap sets.

#[local] Open Scope char_scope.

(** ** Outcomes *)

Inductive res (A : Type) : Type :=
| Val (a : A)
| IndexError
| OutOfFuel.
Arguments Val {A} a.
Arguments IndexError {A}.
Arguments OutOfFuel {A}.

#[global] Instance res_eq_dec {A} `{EqDecision A} : EqDecision (res A).
Proof. solve_decision. Defined.

#[global] Instance res_ret : MRet res := fun A a => Val a.
#[global] Instance res_bind : MBind res := fun A B f m =>
  match m with
  | Val a => f a
  | IndexError => IndexError
  | OutOfFuel => OutOfFuel
  end.
#[global] Instance res_fmap : FMap res := fun A B f m =>
  match m with
  | Val a => Val (f a)
  | IndexError => IndexError
  | OutOfFuel => OutOfFuel
  end.

(** ** Python containers *)

(** A subscript [i] on a sequence of length [n]: a negative index counts
    from the end, anything outside [-n .. n-1] raises. Lists and numpy
    arrays agree on this. *)
Definition indice (n : nat) (i : Z) : res nat :=
  let j := if (i <? 0)%Z then (i + Z.of_nat n)%Z else i in
  if (0 <=? j)%Z && (j <? Z.of_nat n)%Z then Val (Z.to_nat j)
  else IndexError.

(** [l[i]] *)
Definition item {A : Type} (l : list A) (i : Z) : res A :=
  k ← indice (length l) i;
  match l !! k with
  | Some x => Val x
  | None => IndexError
  end.

(** [range(n)] *)
Definition range (n : nat) : list Z := Z.of_nat <$> seq 0 n.

(** [for x in xs: s = body(x, s)], stopping at the first exception. *)
Fixpoint for_each {A S : Type} (xs : list A) (body : A → S → res S) (s : S)
  : res S :=
  match xs with
  | [] => Val s
  | x :: xs' => s' ← body x s; for_each xs' body s'
  end.

(** ** Data model *)

Definition coord : Type := Z * Z.
Definition rota : Type := list coord.
Definition mapa : Type := list (list ascii).
Definition entrada : Type := Z * Z * rota.

(** [mapa[r][c]] *)
Definition marca (m : mapa) (r c : Z) : res ascii :=
  linha ← item m r; item linha c.

Module Busca.

(** *** Locating the markers (lines 48-55) *)

Definition examina (m : mapa) (r c : Z) (pd : option coord * option coord)
  : res (option coord * option coord) :=
  ch ← marca m r c;
  if decide (ch = "E") then Val (Some (r, c), pd.2)
  else if decide (ch = "S") then Val (pd.1, Some (r, c))
  else Val pd.

Definition localiza (m : mapa) (linhas colunas : nat)
  : res (option coord * option coord) :=
  for_each (range linhas)
    (fun r => for_each (range colunas) (fun c => examina m r c))
    (None, None).

(** *** The state of the [while] loop (lines 62-74) *)

Record estado : Type := Estado {
  fila : list entrada;
  visitados : gset coord;
  rota_ideal : option rota;
  todos_segmentos_explorados : list rota;
  exploration_snapshots : list (gset coord);
  step_counter : Z
}.

Definition snapshot_interval : Z := 5.

Definition estado_inicial (partida : coord) : estado :=
  {| fila := [(partida.1, partida.2, [partida])];
     visitados := {[ partida ]};
     rota_ideal := None;
     todos_segmentos_explorados := [];
     exploration_snapshots := [];
     step_counter := 0 |}.

(** *** Neighbour expansion (lines 94-106) *)

Definition direcoes : list (Z * Z) :=
  [(-1, 0); (1, 0); (0, -1); (0, 1)]%Z.

Definition dentro (linhas colunas : nat) (p : coord) : bool :=
  (0 <=? p.1)%Z && (p.1 <? Z.of_nat linhas)%Z &&
  (0 <=? p.2)%Z && (p.2 <? Z.of_nat colunas)%Z.

(** One turn of [for dr, dc in direcoes]; the pair carried along is
    [(visitados, fila)]. The marker is read only when the bounds test
    passed, as the short-circuit [and] does. *)
Definition tenta (m : mapa) (linhas colunas : nat)
    (r_atual c_atual : Z) (rota_atual : rota)
    (d : Z * Z) (vf : gset coord * list entrada)
  : res (gset coord * list entrada) :=
  let r_novo := (r_atual + d.1)%Z in
  let c_novo := (c_atual + d.2)%Z in
  if dentro linhas colunas (r_novo, c_novo) then
    ch ← marca m r_novo c_novo;
    if decide (ch ≠ "#" ∧ (r_novo, c_novo) ∉ vf.1) then
      Val ({[ (r_novo, c_novo) ]} ∪ vf.1,
           vf.2 ++ [(r_novo, c_novo, rota_atual ++ [(r_novo, c_novo)])])
    else Val vf
  else Val vf.

Definition expande (m : mapa) (linhas colunas : nat)
    (r_atual c_atual : Z) (rota_atual : rota)
    (vf : gset coord * list entrada)
  : res (gset coord * list entrada) :=
  for_each direcoes (tenta m linhas colunas r_atual c_atual rota_atual) vf.

(** *** The [while fila:] loop (lines 76-106) *)

Definition captura (st : estado) (r_atual c_atual : Z) (destino : coord)
  : list (gset coord) :=
  if decide ((step_counter st `mod` snapshot_interval)%Z = 0%Z
             ∨ (r_atual, c_atual) = destino)
  then exploration_snapshots st ++ [visitados st]
  else exploration_snapshots st.

(** The state left by the iteration that dequeues the goal (lines 87-91),
    [snaps] being the snapshots after line 83. *)
Definition chegada (st : estado) (rota_atual : rota) (resto : list entrada)
    (snaps : list (gset coord)) : estado :=
  {| fila := resto;
     visitados := visitados st;
     rota_ideal := Some rota_atual;
     todos_segmentos_explorados :=
       todos_segmentos_explorados st ++ [rota_atual];
     exploration_snapshots :=
       if decide (visitados st ∈ snaps) then snaps
       else snaps ++ [visitados st];
     step_counter := (step_counter st + 1)%Z |}.

(** The state after an iteration that expanded a cell other than the goal
    into the visited set [vis] and the queue [fl]. *)
Definition avanca (st : estado) (rota_atual : rota)
    (snaps : list (gset coord)) (vis : gset coord) (fl : list entrada)
  : estado :=
  {| fila := fl;
     visitados := vis;
     rota_ideal := rota_ideal st;
     todos_segmentos_explorados :=
       todos_segmentos_explorados st ++ [rota_atual];
     exploration_snapshots := snaps;
     step_counter := (step_counter st + 1)%Z |}.

(** [fuel] bounds the number of iterations; an iteration is counted only
    when the queue is not empty. [busca] gives [linhas * colunas]: every
    cell is enqueued at most once. *)
Fixpoint laco (fuel : nat) (m : mapa) (linhas colunas : nat)
    (destino : coord) (st : estado) : res estado :=
  match fila st with
  | [] => Val st
  | (r_atual, c_atual, rota_atual) :: resto =>
    match fuel with
    | O => OutOfFuel
    | S fuel' =>
      let snaps := captura st r_atual c_atual destino in
      if decide ((r_atual, c_atual) = destino) then
        Val (chegada st rota_atual resto snaps)
      else
        '(vis, fl) ← expande m linhas colunas r_atual c_atual rota_atual
                       (visitados st, resto);
        laco fuel' m linhas colunas destino
             (avanca st rota_atual snaps vis fl)
    end
  end.

(** *** Discarded routes (lines 109-122) *)

(** The inner [for point in path_segment] with its flag and [break]. *)
Fixpoint is_wrong_path_segment (rota_ideal_set : gset coord)
    (path_segment : rota) : bool :=
  match path_segment with
  | [] => false
  | point :: rest =>
    if decide (point ∉ rota_ideal_set) then true
    else is_wrong_path_segment rota_ideal_set rest
  end.

Fixpoint descarta (ri : rota) (rota_ideal_set : gset coord)
    (todos : list rota) (rotas_descartadas : list rota) : list rota :=
  match todos with
  | [] => rotas_descartadas
  | path_segment :: rest =>
    descarta ri rota_ideal_set rest
      (if is_wrong_path_segment rota_ideal_set path_segment
          && bool_decide (path_segment ≠ ri)
       then rotas_descartadas ++ [path_segment]
       else rotas_descartadas)
  end.

(** [if rota_ideal:] is false for [None] and for the empty list. *)
Definition filtra_descartadas (ri : option rota) (todos : list rota)
  : list rota :=
  match ri with
  | Some ((_ :: _) as p) => descarta p (list_to_set p) todos []
  | _ => filter (fun path => (1 < length path)%nat) todos
  end.

(** *** The function *)

Definition saida : Type :=
  option rota * list rota * mapa * list (gset coord).

(** The search proper: [None] when a marker is missing (line 57),
    otherwise the state in which the loop stopped. *)
Definition busca (m : mapa) : res (option estado) :=
  let linhas := length m in
  linha0 ← item m 0;
  let colunas := length linha0 in
  pd ← localiza m linhas colunas;
  match pd with
  | (Some partida, Some destino) =>
    st ← laco (linhas * colunas) m linhas colunas destino
              (estado_inicial partida);
    Val (Some st)
  | _ => Val None
  end.

Definition encontrar_melhor_rota (m : mapa) : res saida :=
  o ← busca m;
  match o with
  | None => Val (None, [], m, [])
  | Some st =>
    Val (rota_ideal st,
         filtra_descartadas (rota_ideal st) (todos_segmentos_explorados st),
         m,
         exploration_snapshots st)
  end.

End Busca.

(** ** The final classification matrix ([plotar_mapa_final], lines 188-214)

    The matrix is the [numpy] array handed to [imshow]; its entries are
    the floats 0.0 .. 5.0, which are exact, and are modelled as [Z]. The
    drawing itself is outside the model. An argument that is iterated
    ([final_visited_cells], [rota_ideal]) is the sequence of pairs it
    yields, [None] when the argument is [None]. *)

Module Plot.

Abbreviation matriz := (list (list Z)).

(** [np.zeros((linhas, colunas))] *)
Definition zeros (linhas colunas : nat) : matriz :=
  replicate linhas (replicate colunas 0%Z).

(** [map_matrix[r][c]] *)
Definition le (mm : matriz) (r c : Z) : res Z :=
  linha ← item mm r; item linha c.

(** [map_matrix[r][c] = v] *)
Definition atribui (mm : matriz) (r c : Z) (v : Z) : res matriz :=
  i ← indice (length mm) r;
  linha ← item mm r;
  j ← indice (length linha) c;
  Val (<[i := <[j := v]> linha]> mm).

(** The value the first pass gives to a marker (lines 195-202). *)
Definition classe (ch : ascii) : Z :=
  if decide (ch = "#") then 1
  else if decide (ch = "E") then 2
  else if decide (ch = "S") then 3
  else 0.

Definition base (m : mapa) (linhas colunas : nat) : res matriz :=
  for_each (range linhas)
    (fun r => for_each (range colunas)
       (fun c mm => ch ← marca m r c; atribui mm r c (classe ch)))
    (zeros linhas colunas).

(** [for r, c in cells: if cond(map_matrix[r][c]): map_matrix[r][c] = v],
    skipped when [cells] is [None] or empty. *)
Definition pinta (cond : Z → bool) (v : Z) (cells : option (list coord))
    (mm : matriz) : res matriz :=
  match cells with
  | Some ((_ :: _) as l) =>
    for_each l
      (fun p mm => x ← le mm p.1 p.2;
                   if cond x then atribui mm p.1 p.2 v else Val mm)
      mm
  | _ => Val mm
  end.

Definition plotar_mapa_final (m : mapa) (rota_ideal : option rota)
    (rotas_descartadas : option (list rota))
    (final_visited_cells : option (list coord)) : res matriz :=
  let linhas := length m in
  linha0 ← item m 0;
  let colunas := length linha0 in
  mm ← base m linhas colunas;
  mm ← pinta (fun x => bool_decide (x = 0%Z)) 5 final_visited_cells mm;
  pinta (fun x => bool_decide (x = 0%Z) || bool_decide (x = 5%Z)) 4
        rota_ideal mm.

(** The entry in row [i], column [j] of the matrix. *)
Definition celula (mm : matriz) (i j : nat) : option Z :=
  mm !! i ≫= (.!! j).

(** The matrix has [linhas] rows of [colunas] entries. *)
Definition forma (linhas colunas : nat) (mm : matriz) : Prop :=
  length mm = linhas ∧ Forall (fun linha => length linha = colunas) mm.

(** Some pair of [cells] subscripts the entry in row [i], column [j]. *)
Definition atinge (linhas colunas : nat) (cells : option (list coord))
    (i j : nat) : Prop :=
  Exists (fun p => indice linhas p.1 = Val i ∧ indice colunas p.2 = Val j)
         (default [] cells).

#[global] Instance atinge_dec linhas colunas cells i j :
  Decision (atinge linhas colunas cells i j).
Proof. unfold atinge. apply _. Defined.

(** *** The snapshot matrix ([plotar_mapa_snapshot], lines 132-150)

    [visited_cells] is the set the caller passes, [step_title] only
    appears in the title of the figure, and each of the two coordinates
    of [partida_destino_coords] may be [None]. *)

(** The value given to the entry [p] whose marker is [ch] (lines
    141-150). *)
Definition classe_snapshot (visited_cells : gset coord)
    (partida destino : option coord) (ch : ascii) (p : coord) : Z :=
  if decide (ch = "#") then 1
  else if decide (Some p = partida) then 2
  else if decide (Some p = destino) then 3
  else if decide (p ∈ visited_cells) then 4
  else 0.

Definition plotar_mapa_snapshot (m : mapa) (visited_cells : gset coord)
    (step_title : Z) (partida_destino_coords : option coord * option coord)
  : res matriz :=
  let linhas := length m in
  linha0 ← item m 0;
  let colunas := length linha0 in
  let '(partida, destino) := partida_destino_coords in
  for_each (range linhas)
    (fun r => for_each (range colunas)
       (fun c mm =>
          ch ← marca m r c;
          atribui mm r c
            (classe_snapshot visited_cells partida destino ch (r, c))))
    (zeros linhas colunas).

(** A loop that gives every entry a value computed from its marker and
    its coordinates (lines 139-150 and 193-202). *)
Definition preenche (m : mapa) (linhas colunas : nat)
    (f : ascii → coord → Z) : res matriz :=
  for_each (range linhas)
    (fun r => for_each (range colunas)
       (fun c mm => ch ← marca m r c; atribui mm r c (f ch (r, c))))
    (zeros linhas colunas).

(** A pair that subscripts a matrix of [linhas] rows and [colunas]
    columns without raising. *)
Definition subscrito (linhas colunas : nat) (p : coord) : Prop :=
  (- Z.of_nat linhas ≤ p.1 < Z.of_nat linhas)%Z ∧
  (- Z.of_nat colunas ≤ p.2 < Z.of_nat colunas)%Z.

End Plot.

Import Busca.

(** ** The script (lines 253-278)

    What the module does when it is run, for a map [m] in the place of
    [mapa_cidade]: the matrices it draws, one per snapshot and the final
    one when a route was found. Printing is outside the model. The final
    visited set is iterated by [plotar_mapa_final] in the order of
    [elements]; the matrix does not depend on that order. *)

Module Principal.
Import Plot.

(** Lines 254-261: [len(mapa_cidade[0])] is evaluated at each row. *)
Definition varredura (m : mapa) : res (option coord * option coord) :=
  for_each (range (length m))
    (fun r pd =>
       linha0 ← item m 0;
       for_each (range (length linha0)) (fun c => examina m r c) pd)
    (None, None).

(** Lines 269-270: one matrix per snapshot, titled from 1. *)
Definition quadros (m : mapa) (pd : option coord * option coord)
    (snaps : list (gset coord)) : res (list matriz) :=
  for_each (imap (fun i s => (i, s)) snaps)
    (fun '(i, s) qs =>
       mm ← plotar_mapa_snapshot m s (Z.of_nat i + 1) pd;
       Val (qs ++ [mm]))
    [].

Definition principal (m : mapa) : res (list matriz * option matriz) :=
  partida_destino_coords ← varredura m;
  '(rota_ideal, rotas_descartadas, mapa_original, snaps)
    ← encontrar_melhor_rota m;
  qs ← quadros mapa_original partida_destino_coords snaps;
  match rota_ideal with
  | Some (_ :: _) =>
    let celulas_visitadas_final := default ∅ (last snaps) in
    mf ← plotar_mapa_final mapa_original rota_ideal (Some rotas_descartadas)
           (Some (elements celulas_visitadas_final));
    Val (qs, Some mf)
  | _ => Val (qs, None)
  end.

End Principal.

(** ** Concrete maps *)

(** The map of the module (lines 23-33). *)
Definition mapa_cidade : mapa :=
  [ ["E"; " "; " "; "#"; " "; " "; " "; " "; " "; "#"];
    ["#"; "#"; " "; "#"; " "; "#"; "#"; "#"; " "; " "];
    [" "; " "; " "; "#"; " "; " "; " "; "#"; "#"; " "];
    [" "; "#"; "#"; "#"; " "; "#"; " "; " "; " "; " "];
    [" "; " "; " "; " "; " "; "#"; " "; "#"; "#"; " "];
    ["#"; "#"; "#"; " "; "#"; "#"; "#"; "#"; " "; "#"];
    [" "; " "; " "; " "; " "; " "; " "; " "; " "; " "];
    [" "; "#"; "#"; "#"; "#"; "#"; " "; "#"; "#"; " "];
    [" "; " "; " "; " "; " "; " "; " "; "#"; "S"; " "] ].

Definition mapa3 : mapa :=
  [ ["E"; " "; "#"];
    [" "; "#"; " "];
    [" "; " "; "S"] ].

(** Two routes of four hops lead from the start to the goal, one leaving
    westwards and one eastwards. *)
Definition mapa_bifurcado : mapa :=
  [ [" "; "S"; " "];
    [" "; "#"; " "];
    [" "; "E"; " "] ].

(** A map without goal. *)
Definition mapa_sem_destino : mapa := [ ["E"; " "]; [" "; "#"] ].

(** Two ['E'] cells and two ['S'] cells. *)
Definition mapa_repetido : mapa :=
  [ ["E"; " "; "S"];
    [" "; "E"; " "];
    ["S"; " "; " "] ].

(** A map with a character outside the documented markers, and what the
    expansion of its start cell gives. *)
Definition mapa_estranho : mapa := [ ["E"; "x"]; ["S"; "#"] ].

Definition expansao_estranha : gset coord * list entrada :=
  Eval vm_compute in
    match expande mapa_estranho 2 2 0 0 [(0, 0)%Z] ({[ (0, 0)%Z ]}, []) with
    | Val vf => vf
    | _ => (∅, [])
    end.

(** The result and the final state of the search on [mapa3]. *)
Definition saida_mapa3 : saida :=
  Eval vm_compute in
    match encontrar_melhor_rota mapa3 with
    | Val s => s
    | _ => (None, [], [], [])
    end.

Definition estado_mapa3 : estado :=
  Eval vm_compute in
    match busca mapa3 with
    | Val (Some st) => st
    | _ => estado_inicial (0, 0)%Z
    end.

(** A map whose goal is walled off, and the result of the search on it. *)
Definition mapa_murado : mapa :=
  [ ["E"; " "; "#"; "S"];
    [" "; " "; "#"; " "] ].

Definition saida_murado : saida :=
  Eval vm_compute in
    match encontrar_melhor_rota mapa_murado with
    | Val s => s
    | _ => (None, [], [], [])
    end.

(** ** Vocabulary of the specification *)

(** The order of the directions as the comment on line 93 and the
    specification give it: north, south, east, west. *)
Definition direcoes_documentadas : list (Z * Z) :=
  [(-1, 0); (1, 0); (0, 1); (0, -1)]%Z.

(** Number of columns: the length of the first row. *)
Definition n_colunas (m : mapa) : nat := length (default [] (head m)).

(** A grid is non-empty and rectangular. *)
Definition grade (m : mapa) : Prop :=
  m ≠ [] ∧ Forall (fun linha => length linha = n_colunas m) m.

(** Row-major order on coordinates. *)
Definition antes (p q : coord) : Prop :=
  (p.1 < q.1)%Z ∨ (p.1 = q.1 ∧ p.2 < q.2)%Z.

(** [p] is the last cell, in row-major order, that carries [ch]. *)
Definition ultima (m : mapa) (ch : ascii) (p : coord) : Prop :=
  dentro (length m) (n_colunas m) p = true ∧
  marca m p.1 p.2 = Val ch ∧
  ∀ q, dentro (length m) (n_colunas m) q = true →
       marca m q.1 q.2 = Val ch → q = p ∨ antes q p.

(** The two nested [for] loops over rows and columns visit the cells in
    row-major order. *)
Definition celulas (linhas colunas : nat) : list coord :=
  r ← range linhas; (fun c => (r, c)) <$> range colunas.

(** The last cell of the sequence [cs] that carries [ch], if any. *)
Definition ultimo_com (m : mapa) (ch : ascii) (cs : list coord)
  : option coord :=
  last (filter (fun p => marca m p.1 p.2 = Val ch) cs).

(** No cell of the map carries [ch]. *)
Definition ausente (m : mapa) (ch : ascii) : Prop :=
  Forall (fun linha => ch ∉ linha) m.

(** A cell that can be walked on: inside the bounds and not ['#']. *)
Definition livre (m : mapa) (linhas colunas : nat) (p : coord) : Prop :=
  dentro linhas colunas p = true ∧
  match marca m p.1 p.2 with
  | Val ch => ch ≠ "#"
  | _ => False
  end.

#[global] Instance livre_dec m linhas colunas p :
  Decision (livre m linhas colunas p).
Proof. unfold livre. destruct (marca m p.1 p.2); apply _. Defined.

(** The cell reached from [b] by the step [d], the four neighbours of [b]
    in the order of [direcoes], and those of them the search enters from
    a visited set [vis]. *)
Definition desloca (b : coord) (d : Z * Z) : coord :=
  (b.1 + d.1, b.2 + d.2)%Z.

Definition vizinhos (b : coord) : list coord := desloca b <$> direcoes.

Definition entra (m : mapa) (linhas colunas : nat) (vis : gset coord)
    (n : coord) : Prop :=
  livre m linhas colunas n ∧ n ∉ vis.

Definition novos (m : mapa) (linhas colunas : nat) (vis : gset coord)
    (b : coord) : list coord :=
  filter (entra m linhas colunas vis) (vizinhos b).

(** The queue entry made for a neighbour [n] of the end of [p]. *)
Definition estende (p : rota) (n : coord) : entrada :=
  (n.1, n.2, p ++ [n]).

Definition transitavel (m : mapa) (p : coord) : Prop :=
  livre m (length m) (n_colunas m) p.

(** 4-adjacency. *)
Definition adjacente (p q : coord) : Prop :=
  (Z.abs (q.1 - p.1) + Z.abs (q.2 - p.2) = 1)%Z.

Fixpoint encadeada (p : rota) : Prop :=
  match p with
  | a :: (b :: _) as t => adjacente a b ∧ encadeada t
  | _ => True
  end.

(** [p] is a walk from [a] to [b] over cells that are not blocked. *)
Definition caminho (m : mapa) (a b : coord) (p : rota) : Prop :=
  head p = Some a ∧ last p = Some b ∧
  Forall (transitavel m) p ∧ encadeada p.

(** Every route the search has built so far: those already dequeued and
    those still waiting in the queue, in the order they were enqueued. *)
Definition percursos (st : estado) : list rota :=
  todos_segmentos_explorados st ++ (snd <$> fila st).

(** Number of snapshots due after [n] dequeues at one every
    [snapshot_interval]: the ceiling of [n / 5]. *)
Definition teto_intervalo (n : Z) : Z :=
  ((n + snapshot_interval - 1) `div` snapshot_interval)%Z.

(** Every route built is a shortest walk to its end. *)
Definition minimos (m : mapa) (partida : coord) (st : estado) : Prop :=
  ∀ e b q,
    e ∈ percursos st → last e = Some b →
    caminho m partida b q → length e ≤ length q.

(** Before the first dequeue there is no snapshot and only the start is
    visited; afterwards the first snapshot is the singleton of the
    start. *)
Definition primeira_foto (partida : coord) (st : estado) : Prop :=
  (step_counter st = 0%Z ∧ exploration_snapshots st = [] ∧
   visitados st = {[ partida ]}) ∨
  head (exploration_snapshots st) = Some {[ partida ]}.

(** The routes built are in non-decreasing order of length. *)
Definition em_niveis (st : estado) : Prop :=
  StronglySorted (fun a b : rota => length a ≤ length b) (percursos st).

(** A route built, less its last cell, is a route already dequeued. *)
Definition arvore (st : estado) : Prop :=
  ∀ e e' n,
    e ∈ percursos st → e = e' ++ [n] → e' ≠ [] →
    e' ∈ todos_segmentos_explorados st.

(** The discarded segments as the specification words them. *)
Definition descartadas_spec (ri : option rota) (todos : list rota)
  : list rota :=
  match ri with
  | Some p => filter (fun seg => Exists (fun x => x ∉ p) seg ∧ seg ≠ p) todos
  | None => filter (fun seg => (1 < length seg)%nat) todos
  end.

(** [s] is a chain under inclusion: every element is a subset of every
    later one. *)
Definition cadeia (s : list (gset coord)) : Prop :=
  ∀ i j a b, (i ≤ j)%nat → s !! i = Some a → s !! j = Some b → a ⊆ b.

(** *** Loop invariants

    [inv_estrutura]: the routes built so far are simple walks from the
    start over free cells, and the visited set is the set of their ends,
    each reached by one route only. *)
Record inv_estrutura (m : mapa) (linhas colunas : nat) (partida : coord)
    (st : estado) : Prop := {
  ie_ponta : ∀ r c p, (r, c, p) ∈ fila st → last p = Some (r, c);
  ie_inicio : ∀ p, p ∈ percursos st → head p = Some partida;
  ie_livre : ∀ p, p ∈ percursos st → Forall (livre m linhas colunas) p;
  ie_encadeada : ∀ p, p ∈ percursos st → encadeada p;
  ie_contido : ∀ p x, p ∈ percursos st → x ∈ p → x ∈ visitados st;
  ie_pontas : ∀ v, v ∈ visitados st →
                   ∃ p, p ∈ percursos st ∧ last p = Some v;
  ie_pontas_nodup : NoDup (last <$> percursos st);
  ie_nodup : ∀ p, p ∈ percursos st → NoDup p;
  ie_rota : rota_ideal st = None
}.

(** [inv_ordem]: the queue holds routes of at most two consecutive
    lengths in non-decreasing order, no route is longer than the front
    one by more than a cell, and every free neighbour of the end of a
    dequeued route [p] is the end of a route of at most one cell more. *)
Record inv_ordem (m : mapa) (linhas colunas : nat) (partida destino : coord)
    (st : estado) : Prop := {
  io_ordenada :
    StronglySorted (fun e1 e2 : entrada => length e1.2 ≤ length e2.2)
                   (fila st);
  io_nivel : ∀ e q, head (fila st) = Some e → q ∈ percursos st →
                    length q ≤ S (length e.2);
  io_fecho : ∀ p b c,
    p ∈ todos_segmentos_explorados st → last p = Some b →
    adjacente b c → livre m linhas colunas c →
    ∃ q, q ∈ percursos st ∧ last q = Some c ∧ length q ≤ S (length p);
  io_nao_destino : ∀ p, p ∈ todos_segmentos_explorados st →
                        last p ≠ Some destino;
  io_raiz : [partida] ∈ percursos st
}.

(** [inv_fotos]: one snapshot for every five dequeues so far, each a
    subset of the later ones and of the visited set. *)
Record inv_fotos (st : estado) : Prop := {
  if_passo :
    step_counter st = Z.of_nat (length (todos_segmentos_explorados st));
  if_conta :
    Z.of_nat (length (exploration_snapshots st))
    = teto_intervalo (step_counter st);
  if_cadeia : cadeia (exploration_snapshots st);
  if_contidas : ∀ s, s ∈ exploration_snapshots st → s ⊆ visitados st
}.

Definition inv (m : mapa) (linhas colunas : nat) (partida destino : coord)
    (st : estado) : Prop :=
  inv_estrutura m linhas colunas partida st ∧
  inv_ordem m linhas colunas partida destino st ∧
  inv_fotos st.

(** The states in which the loop can stop: the queue ran empty, or the
    front entry [p] of a state [st1] was the goal. *)
Definition parada (m : mapa) (linhas colunas : nat)
    (partida destino : coord) (st' : estado) : Prop :=
  (inv m linhas colunas partida destino st' ∧ fila st' = []) ∨
  (∃ st1 p resto,
     inv m linhas colunas partida destino st1 ∧
     fila st1 = (destino.1, destino.2, p) :: resto ∧
     st' = chegada st1 p resto (captura st1 destino.1 destino.2 destino)).

(** ** Basic facts on the containers *)

Lemma bind_Val {A B} (f : A → res B) (x : res A) (b : B) :
  x ≫= f = Val b ↔ ∃ a, x = Val a ∧ f a = Val b.
Proof.
  destruct x; simpl; split; try (intros (? & ? & ?)); try discriminate; eauto.
  simplify_eq. done.
Qed.

Lemma indice_Val n i k :
  indice n i = Val k →
  (k < n)%nat ∧
  (Z.of_nat k = if (i <? 0)%Z then (i + Z.of_nat n)%Z else i).
Proof.
  unfold indice. destruct (i <? 0)%Z eqn:Hi; intros H;
    case_match; simplify_eq; lia.
Qed.

Lemma indice_nonneg n i :
  (0 ≤ i < Z.of_nat n)%Z → indice n i = Val (Z.to_nat i).
Proof.
  intros H. unfold indice.
  destruct (i <? 0)%Z eqn:Hi; [lia|].
  destruct (0 <=? i)%Z eqn:H1; destruct (i <? Z.of_nat n)%Z eqn:H2;
    simpl; try lia; done.
Qed.

Lemma item_nonneg {A} (l : list A) i x :
  (0 ≤ i)%Z → item l i = Val x ↔ l !! Z.to_nat i = Some x.
Proof.
  intros Hi. unfold item. split.
  - intros (k & Hk & H)%bind_Val. apply indice_Val in Hk as [_ Hk].
    destruct (i <? 0)%Z eqn:E; [lia|]. replace (Z.to_nat i) with k by lia.
    destruct (l !! k); by simplify_eq.
  - intros H. rewrite indice_nonneg.
    + simpl. by rewrite H.
    + apply lookup_lt_Some in H. lia.
Qed.

Lemma item_elem_of {A} (l : list A) i x : item l i = Val x → x ∈ l.
Proof.
  unfold item. intros (k & _ & H)%bind_Val.
  destruct (l !! k) eqn:E; simplify_eq. by eapply list_elem_of_lookup_2.
Qed.

Lemma item_0 {A} (l : list A) x : item l 0 = Val x ↔ head l = Some x.
Proof. rewrite item_nonneg by lia. by destruct l. Qed.

Lemma marca_elem_of m r c ch :
  marca m r c = Val ch → ∃ linha, linha ∈ m ∧ ch ∈ linha.
Proof.
  unfold marca. intros (linha & H1 & H2)%bind_Val.
  exists linha. eauto using item_elem_of.
Qed.

Lemma dentro_spec linhas colunas p :
  dentro linhas colunas p = true ↔
  (0 ≤ p.1 < Z.of_nat linhas)%Z ∧ (0 ≤ p.2 < Z.of_nat colunas)%Z.
Proof. unfold dentro. rewrite !andb_true_iff. lia. Qed.

Lemma elem_of_range n i : i ∈ range n ↔ (0 ≤ i < Z.of_nat n)%Z.
Proof.
  unfold range. rewrite list_elem_of_fmap. split.
  - intros (k & -> & Hk). apply elem_of_seq in Hk. lia.
  - intros H. exists (Z.to_nat i). split; [lia|]. apply elem_of_seq. lia.
Qed.

(** In a grid every cell inside the bounds can be read. *)
Lemma grade_marca m p :
  grade m → dentro (length m) (n_colunas m) p = true →
  ∃ ch, marca m p.1 p.2 = Val ch.
Proof.
  intros [_ Hret] [Hr Hc]%dentro_spec. unfold marca.
  destruct (lookup_lt_is_Some_2 m (Z.to_nat p.1)) as [linha Hl]; [lia|].
  assert (length linha = n_colunas m) as Hlen
    by (eapply (proj1 (Forall_forall _ _) Hret), list_elem_of_lookup_2; eauto).
  destruct (lookup_lt_is_Some_2 linha (Z.to_nat p.2)) as [ch Hch]; [lia|].
  exists ch. apply bind_Val. exists linha.
  by rewrite !item_nonneg by lia.
Qed.

(** ** Facts on [for_each] *)

Lemma for_each_app {A S} (xs ys : list A) (body : A → S → res S) s :
  for_each (xs ++ ys) body s = for_each xs body s ≫= for_each ys body.
Proof.
  revert s. induction xs as [|x xs IH]; intros s; simpl; [done|].
  destruct (body x s); simpl; auto.
Qed.

(** Invariant rule: [I done s] holds after the body ran on [done]. *)
Lemma for_each_inv {A S} (I : list A → S → Prop) (xs : list A)
    (body : A → S → res S) s s' :
  I [] s →
  (∀ done x t t', I done t → x ∈ xs → body x t = Val t' →
                  I (done ++ [x]) t') →
  for_each xs body s = Val s' → I xs s'.
Proof.
  intros H0 Hstep. revert s s' H0.
  assert (∀ done rest s s', done ++ rest = xs → I done s →
            for_each rest body s = Val s' → I xs s') as Hgen.
  { intros done rest. revert done.
    induction rest as [|x rest IH]; intros done s s' Heq HI Hrun; simpl in *.
    - simplify_eq. by rewrite app_nil_r.
    - apply bind_Val in Hrun as (t & Hb & Hrun).
      apply (IH (done ++ [x]) t s'); [by rewrite <- app_assoc| |done].
      eapply Hstep; eauto. subst xs. set_solver. }
  intros s s'. by apply (Hgen [] xs).
Qed.

(** Progress rule: a body that never raises on [xs] gives a value. *)
Lemma for_each_Val {A S} (xs : list A) (body : A → S → res S) s :
  (∀ x t, x ∈ xs → ∃ t', body x t = Val t') →
  ∃ s', for_each xs body s = Val s'.
Proof.
  revert s. induction xs as [|x xs IH]; intros s H; simpl; [eauto|].
  destruct (H x s) as [t Ht]; [set_solver|]. rewrite Ht. simpl.
  apply IH. intros. apply H. set_solver.
Qed.

Lemma for_each_fmap {A B S} (f : A → B) (xs : list A)
    (body : B → S → res S) s :
  for_each (f <$> xs) body s = for_each xs (fun x => body (f x)) s.
Proof.
  revert s. induction xs as [|x xs IH]; intros s; simpl; [done|].
  destruct (body (f x) s); simpl; auto.
Qed.

Lemma for_each_celulas {S} linhas colunas (body : Z → Z → S → res S) s :
  for_each (range linhas) (fun r => for_each (range colunas) (body r)) s
  = for_each (celulas linhas colunas) (fun p => body p.1 p.2) s.
Proof.
  unfold celulas. generalize (range linhas) as rs. intros rs. revert s.
  induction rs as [|r rs IH]; intros s; [done|].
  rewrite bind_cons, for_each_app, for_each_fmap. simpl.
  destruct (for_each (range colunas) _ s); simpl; auto.
Qed.

Lemma elem_of_celulas linhas colunas p :
  p ∈ celulas linhas colunas ↔ dentro linhas colunas p = true.
Proof.
  unfold celulas. rewrite list_elem_of_bind, dentro_spec. split.
  - intros (r & (c & -> & Hc)%list_elem_of_fmap & Hr).
    apply elem_of_range in Hc, Hr. simpl. lia.
  - intros [Hr Hc]. exists p.1. split; [|by apply elem_of_range].
    apply list_elem_of_fmap. exists p.2.
    split; [by destruct p|by apply elem_of_range].
Qed.

(** ** The scan for the markers *)

Lemma examina_spec m p pd pd' :
  examina m p.1 p.2 pd = Val pd' →
  ∃ ch, marca m p.1 p.2 = Val ch ∧
    pd' = if decide (ch = "E") then (Some p, pd.2)
          else if decide (ch = "S") then (pd.1, Some p) else pd.
Proof.
  unfold examina. intros (ch & Hm & H)%bind_Val. exists ch. split; [done|].
  destruct p. repeat case_decide; by simplify_eq.
Qed.

Lemma ultimo_com_snoc m ch cs p :
  ultimo_com m ch (cs ++ [p]) =
  if decide (marca m p.1 p.2 = Val ch) then Some p else ultimo_com m ch cs.
Proof.
  unfold ultimo_com. rewrite filter_app, filter_cons, filter_nil.
  case_decide; [by rewrite last_snoc|by rewrite app_nil_r].
Qed.

Lemma varredura_spec m cs pd :
  for_each cs (fun p => examina m p.1 p.2) (None, None) = Val pd →
  pd = (ultimo_com m "E" cs, ultimo_com m "S" cs).
Proof.
  revert pd. induction cs as [|p cs IH] using rev_ind; intros pd; simpl.
  - by intros [= <-].
  - rewrite for_each_app. intros (pd0 & H0 & H1)%bind_Val.
    simpl in H1. apply bind_Val in H1 as (pd1 & H1 & [= <-]).
    apply IH in H0 as ->. apply examina_spec in H1 as (ch & Hm & ->).
    rewrite !ultimo_com_snoc, Hm. simpl.
    repeat case_decide; simplify_eq; done.
Qed.

Lemma localiza_spec m linhas colunas pd :
  localiza m linhas colunas = Val pd →
  pd = (ultimo_com m "E" (celulas linhas colunas),
        ultimo_com m "S" (celulas linhas colunas)).
Proof.
  unfold localiza. rewrite (for_each_celulas _ _ (examina m)).
  apply varredura_spec.
Qed.

(** A scan that did not raise has read every cell inside the bounds. *)
Lemma localiza_legivel m linhas colunas pd p :
  localiza m linhas colunas = Val pd →
  dentro linhas colunas p = true → ∃ ch, marca m p.1 p.2 = Val ch.
Proof.
  unfold localiza. rewrite (for_each_celulas _ _ (examina m)).
  intros Hrun Hp. apply elem_of_celulas in Hp. revert p Hp.
  eapply (for_each_inv
            (fun done _ => ∀ p, p ∈ done → ∃ ch, marca m p.1 p.2 = Val ch));
    [set_solver| |exact Hrun].
  intros done x t t' IH _ Hx p [Hp| ->%list_elem_of_singleton]%elem_of_app;
    [by apply IH|].
  apply examina_spec in Hx as (ch & ? & _). eauto.
Qed.

Lemma localiza_Val m :
  grade m → ∃ pd, localiza m (length m) (n_colunas m) = Val pd.
Proof.
  intros Hg. unfold localiza. rewrite (for_each_celulas _ _ (examina m)).
  apply for_each_Val. intros x t Hx%elem_of_celulas.
  destruct (grade_marca m x Hg Hx) as [ch Hch].
  unfold examina. rewrite Hch. simpl. repeat case_decide; eauto.
Qed.

Lemma ultimo_com_ausente m ch cs : ausente m ch → ultimo_com m ch cs = None.
Proof.
  intros Ha. unfold ultimo_com.
  replace (filter _ cs) with (@nil coord); [done|].
  symmetry. induction cs as [|p cs IH]; [done|].
  rewrite filter_cons. case_decide as Hm; [|done].
  apply marca_elem_of in Hm as (linha & ? & ?).
  by destruct (proj1 (Forall_forall _ _) Ha linha).
Qed.

(** The value of [busca] once the first row has been read. *)
Lemma busca_unfold m :
  m ≠ [] →
  busca m =
  pd ← localiza m (length m) (n_colunas m);
  match pd with
  | (Some partida, Some destino) =>
    st ← laco (length m * n_colunas m) m (length m) (n_colunas m) destino
              (estado_inicial partida);
    Val (Some st)
  | _ => Val None
  end.
Proof.
  intros Hm. unfold busca, n_colunas. destruct m as [|linha0 m]; [done|].
  by rewrite (proj2 (item_0 _ linha0)).
Qed.

(** ** Missing markers *)

(** C3. On a grid without an ['E'] cell or without an ['S'] cell the
    function raises nothing and returns [(None, [], mapa, [])]. *)
Theorem marcador_ausente (m : mapa) :
  grade m → ausente m "E" ∨ ausente m "S" →
  encontrar_melhor_rota m = Val (None, [], m, []).
Proof.
  intros Hg Ha. unfold encontrar_melhor_rota.
  rewrite busca_unfold by apply Hg.
  destruct (localiza_Val m Hg) as [pd Hpd]. rewrite Hpd. simpl.
  apply localiza_spec in Hpd as ->.
  destruct Ha as [Ha|Ha]; rewrite (ultimo_com_ausente _ _ _ Ha);
    [done|by destruct (ultimo_com m "E" _)].
Qed.

Lemma marcador_ausente_witness :
  encontrar_melhor_rota mapa_sem_destino
  = Val (None, [], mapa_sem_destino, []).
Proof.
  apply marcador_ausente.
  - apply (bool_decide_unpack _). vm_compute. exact I.
  - right. apply (bool_decide_unpack _). vm_compute. exact I.
Defined.

(** ** Concrete runs *)

(** C7. On the 3x3 map of the specification the route returned is
    (0,0), (1,0), (2,0), (2,1), (2,2): five cells, four hops. *)
Theorem rota_mapa3 :
  (fun s : saida => s.1.1.1) <$> encontrar_melhor_rota mapa3
  = Val (Some [(0, 0); (1, 0); (2, 0); (2, 1); (2, 2)]%Z).
Proof. vm_compute. reflexivity. Qed.

(** C2. The order coded on line 94 is north, south, west, east: the
    third direction tried is column-1 and the fourth is column+1, not the
    documented north, south, east, west. On [mapa_bifurcado], where two
    routes of four hops exist, the one that leaves westwards is
    returned. *)
Theorem ordem_das_direcoes :
  direcoes = [(-1, 0); (1, 0); (0, -1); (0, 1)]%Z ∧
  direcoes ≠ direcoes_documentadas ∧
  (fun s : saida => s.1.1.1) <$> encontrar_melhor_rota mapa_bifurcado
  = Val (Some [(2, 1); (2, 0); (1, 0); (0, 0); (0, 1)]%Z).
Proof. split_and!; [reflexivity|discriminate|]. vm_compute. reflexivity. Qed.

(** Outside the precondition: the empty list and a map with a short row
    raise [IndexError] (lines 45 and 52). *)
Example mapa_vazio : encontrar_melhor_rota [] = IndexError.
Proof. reflexivity. Qed.

Example mapa_irregular :
  encontrar_melhor_rota [ ["E"; " "]; ["S"] ] = IndexError.
Proof. reflexivity. Qed.

(** On the map of the module the route found has 23 cells and ends at
    the ['S'] cell (8, 8). *)
Example rota_mapa_cidade :
  (fun s : saida => (length <$> s.1.1.1, s.1.1.1 ≫= last))
    <$> encontrar_melhor_rota mapa_cidade
  = Val (Some 23, Some (8, 8)%Z).
Proof. vm_compute. reflexivity. Qed.

(** ** Neighbour expansion *)

Lemma tenta_spec m linhas colunas r c p d vis fl vis' fl' :
  tenta m linhas colunas r c p d (vis, fl) = Val (vis', fl') →
  let n := desloca (r, c) d in
  if decide (entra m linhas colunas vis n)
  then vis' = {[ n ]} ∪ vis ∧ fl' = fl ++ [estende p n]
  else vis' = vis ∧ fl' = fl.
Proof.
  intros H n. unfold tenta in H.
  change (r + d.1, c + d.2)%Z with n in H.
  change (r + d.1)%Z with n.1 in H. change (c + d.2)%Z with n.2 in H.
  change (vis, fl).1 with vis in H. change (vis, fl).2 with fl in H.
  fold (estende p n) in H.
  destruct (decide (entra m linhas colunas vis n)) as [He|He];
    unfold entra, livre in He.
  - destruct He as [[Hd Hm] Hv]. rewrite Hd in H.
    destruct (marca m _ _) as [ch| |] eqn:Hch; [|done..]. simpl in H.
    rewrite decide_True in H by done. by simplify_eq.
  - destruct (dentro _ _ n) eqn:Hd; [|by simplify_eq].
    destruct (marca m _ _) as [ch| |] eqn:Hch; [|done..]. simpl in H.
    rewrite decide_False in H by naive_solver. by simplify_eq.
Qed.

Lemma filter_iff_elem_of {A} (P1 P2 : A → Prop)
    `{!∀ x, Decision (P1 x), !∀ x, Decision (P2 x)} (l : list A) :
  (∀ x, x ∈ l → P1 x ↔ P2 x) → filter P1 l = filter P2 l.
Proof.
  induction l as [|a l IH]; intros Hl; [done|].
  rewrite !filter_cons, IH by (intros; apply Hl; set_solver).
  apply decide_ext, Hl. set_solver.
Qed.

Lemma expande_gen m linhas colunas r c p ds vis fl vis' fl' :
  NoDup ds →
  for_each ds (tenta m linhas colunas r c p) (vis, fl) = Val (vis', fl') →
  let ns := filter (entra m linhas colunas vis) (desloca (r, c) <$> ds) in
  vis' = list_to_set ns ∪ vis ∧ fl' = fl ++ (estende p <$> ns).
Proof.
  intros Hnd. revert vis fl.
  induction Hnd as [|d ds Hd Hnd IH]; intros vis fl; simpl.
  - intros [= <- <-]. split; [set_solver|by rewrite app_nil_r].
  - intros ([vis1 fl1] & H1 & Hrest)%bind_Val.
    apply tenta_spec in H1. apply IH in Hrest as [-> ->]. clear IH.
    assert (desloca (r, c) d ∉ desloca (r, c) <$> ds) as Hfresh.
    { intros (d' & Heq & Hd')%list_elem_of_fmap.
      assert (d = d') as <-; [|done].
      destruct d, d'. unfold desloca in Heq. simpl in Heq.
      injection Heq as ? ?. f_equal; lia. }
    rewrite filter_cons. simpl in H1. case_decide as He.
    + destruct H1 as [-> ->].
      rewrite (filter_iff_elem_of _ (entra m linhas colunas vis)).
      * rewrite fmap_cons, list_to_set_cons, <- app_assoc. simpl.
        split; [set_solver|done].
      * intros n Hn. assert (n ≠ desloca (r, c) d) by (by intros ->).
        clear Hn Hfresh. unfold entra. set_solver.
    + destruct H1 as [-> ->]. done.
Qed.

Lemma NoDup_direcoes : NoDup direcoes.
Proof. by apply (bool_decide_unpack _). Qed.

(** What the four turns of the inner [for] do to the visited set and to
    the queue. *)
Lemma expande_spec m linhas colunas r c p vis fl vis' fl' :
  expande m linhas colunas r c p (vis, fl) = Val (vis', fl') →
  vis' = list_to_set (novos m linhas colunas vis (r, c)) ∪ vis ∧
  fl' = fl ++ (estende p <$> novos m linhas colunas vis (r, c)).
Proof. apply expande_gen, NoDup_direcoes. Qed.

Lemma adjacente_vizinhos b n : adjacente b n ↔ n ∈ vizinhos b.
Proof.
  unfold adjacente, vizinhos, direcoes, desloca. destruct b as [r c], n as [r' c'].
  simpl. rewrite !elem_of_cons, elem_of_nil. split.
  - intros H.
    assert ((r' = r - 1 ∧ c' = c) ∨ (r' = r + 1 ∧ c' = c) ∨
            (r' = r ∧ c' = c - 1) ∨ (r' = r ∧ c' = c + 1))%Z
      as [[-> ->]|[[-> ->]|[[-> ->]|[-> ->]]]] by lia.
    + left. f_equal; lia.
    + right; left. f_equal; lia.
    + right; right; left. f_equal; lia.
    + right; right; right; left. f_equal; lia.
  - intros [H|[H|[H|[H|[]]]]]; injection H as -> ->; lia.
Qed.

Lemma elem_of_novos m linhas colunas vis b n :
  n ∈ novos m linhas colunas vis b ↔
  adjacente b n ∧ livre m linhas colunas n ∧ n ∉ vis.
Proof.
  unfold novos. rewrite list_elem_of_filter, adjacente_vizinhos.
  unfold entra. tauto.
Qed.

Lemma NoDup_novos m linhas colunas vis b :
  NoDup (novos m linhas colunas vis b).
Proof.
  apply NoDup_filter, NoDup_fmap_2_strong; [|apply NoDup_direcoes].
  intros [] [] _ _. unfold desloca. simpl. intros [= ? ?]. f_equal; lia.
Qed.

(** C10. The only test on the marker of a neighbour is [!= '#']: a
    neighbour that is inside the bounds and not yet visited is added to
    the visited set and to the queue exactly when its marker, whatever
    character it is, differs from ['#']. *)
Theorem bloqueio_apenas_cerquilha (m : mapa) (linhas colunas : nat)
    (r c : Z) (p : rota) (vis vis' : gset coord) (fl fl' : list entrada)
    (d : Z * Z) (ch : ascii) :
  expande m linhas colunas r c p (vis, fl) = Val (vis', fl') →
  d ∈ direcoes →
  dentro linhas colunas (desloca (r, c) d) = true →
  desloca (r, c) d ∉ vis →
  marca m (r + d.1) (c + d.2) = Val ch →
  (ch ≠ "#" → desloca (r, c) d ∈ vis' ∧ estende p (desloca (r, c) d) ∈ fl')
  ∧ (ch = "#" → desloca (r, c) d ∉ vis').
Proof.
  intros [-> ->]%expande_spec Hd Hin Hvis Hch.
  assert (adjacente (r, c) (desloca (r, c) d)) as Hadj.
  { apply adjacente_vizinhos, list_elem_of_fmap. eauto. }
  split.
  - intros Hne.
    assert (desloca (r, c) d ∈ novos m linhas colunas vis (r, c)) as Hn.
    { apply elem_of_novos. split_and!; [done| |done].
      split; [done|]. simpl. by rewrite Hch. }
    split; [set_solver|].
    apply elem_of_app. right. apply list_elem_of_fmap. eauto.
  - intros -> [Hn|Hn]%elem_of_union; [|done].
    apply elem_of_list_to_set, elem_of_novos in Hn as (_ & [_ Hl] & _).
    simpl in Hl. rewrite Hch in Hl. done.
Qed.

Lemma bloqueio_apenas_cerquilha_witness :
  ("x" ≠ "#" →
   desloca (0, 0)%Z (0, 1)%Z ∈ expansao_estranha.1 ∧
   estende [(0, 0)%Z] (desloca (0, 0)%Z (0, 1)%Z) ∈ expansao_estranha.2)
  ∧ ("x" = "#" → desloca (0, 0)%Z (0, 1)%Z ∉ expansao_estranha.1).
Proof.
  apply (bloqueio_apenas_cerquilha mapa_estranho 2 2 0 0 [(0, 0)%Z]
           {[ (0, 0)%Z ]} expansao_estranha.1 [] expansao_estranha.2
           (0, 1)%Z "x").
  - vm_compute. reflexivity.
  - apply (bool_decide_unpack _). vm_compute. exact I.
  - reflexivity.
  - apply (bool_decide_unpack _). vm_compute. exact I.
  - vm_compute. reflexivity.
Defined.

(** ** The loop *)

(** Proof rule for [laco]: [I] holds of every state at the head of the
    loop, the result is either such a state with an empty queue or the
    state left by the arrival at the goal. *)
Lemma laco_regra (I : estado → Prop) m linhas colunas destino :
  (∀ st r c p resto vis fl,
     I st → fila st = (r, c, p) :: resto → (r, c) ≠ destino →
     expande m linhas colunas r c p (visitados st, resto) = Val (vis, fl) →
     I (avanca st p (captura st r c destino) vis fl)) →
  ∀ fuel st st',
    I st → laco fuel m linhas colunas destino st = Val st' →
    (I st' ∧ fila st' = []) ∨
    (∃ st1 p resto,
       I st1 ∧ fila st1 = (destino.1, destino.2, p) :: resto ∧
       st' = chegada st1 p resto (captura st1 destino.1 destino.2 destino)).
Proof.
  intros Hstep fuel. induction fuel as [|fuel IH]; intros st st' HI Hrun.
  - simpl in Hrun. destruct (fila st) as [|[[r c] p] resto] eqn:Hf;
      [|done]. simplify_eq. by left.
  - simpl in Hrun. destruct (fila st) as [|[[r c] p] resto] eqn:Hf.
    { simplify_eq. by left. }
    case_decide as Hd.
    + simplify_eq. right. exists st, p, resto. simpl. by rewrite Hf.
    + apply bind_Val in Hrun as ([vis fl] & Hexp & Hrun).
      eapply IH; [|exact Hrun]. eapply Hstep; eauto.
Qed.

(** ** Walks *)

Lemma encadeada_snoc p a b :
  last p = Some a → encadeada p → adjacente a b → encadeada (p ++ [b]).
Proof.
  induction p as [|x [|y p] IH]; simpl; [done| |].
  - intros [= ->]. done.
  - intros Hl [Hxy Hp] Hab. split; [done|]. by apply IH.
Qed.

Lemma encadeada_snoc_inv p a b :
  encadeada (p ++ [a; b]) → encadeada (p ++ [a]) ∧ adjacente a b.
Proof.
  induction p as [|x [|y p] IH]; simpl.
  - tauto.
  - intros (? & ? & _). tauto.
  - intros [Hxy Hp]. destruct (IH Hp). tauto.
Qed.

(** ** Preservation of the invariants *)

Section Passo.
Variables (m : mapa) (linhas colunas : nat) (partida destino : coord).
Variables (st : estado) (r c : Z) (p : rota) (resto : list entrada).
Hypothesis Hfila : fila st = (r, c, p) :: resto.

Let ns := novos m linhas colunas (visitados st) (r, c).
Let st' :=
  avanca st p (captura st r c destino)
    (list_to_set ns ∪ visitados st) (resto ++ (estende p <$> ns)).

Lemma percursos_avanca :
  percursos st' = percursos st ++ ((fun n => p ++ [n]) <$> ns).
Proof.
  unfold percursos, st'. simpl. rewrite Hfila, fmap_app, fmap_cons.
  rewrite <- list_fmap_compose. simpl.
  rewrite <- !app_assoc. done.
Qed.

Lemma frente_em_percursos : p ∈ percursos st.
Proof. unfold percursos. rewrite Hfila. set_solver. Qed.

Lemma estrutura_avanca :
  inv_estrutura m linhas colunas partida st →
  inv_estrutura m linhas colunas partida st'.
Proof.
  intros [Hponta Hini Hliv Henc Hcont Hpontas Hnd_pontas Hnd Hrota].
  pose proof frente_em_percursos as Hp.
  assert (last p = Some (r, c)) as Hlast
    by (apply Hponta; rewrite Hfila; set_solver).
  assert (∀ n, n ∈ ns →
            adjacente (r, c) n ∧ livre m linhas colunas n ∧
            n ∉ visitados st) as Hns
    by (intros n; apply elem_of_novos).
  split.
  - intros r' c' q. unfold st'. simpl.
    intros [Hq|Hq]%elem_of_app.
    + apply Hponta. rewrite Hfila. set_solver.
    + apply list_elem_of_fmap in Hq as (n & [= -> -> ->] & _).
      rewrite last_snoc. by destruct n.
  - intros q. rewrite percursos_avanca.
    intros [Hq|(n & -> & _)%list_elem_of_fmap]%elem_of_app; [by apply Hini|].
    specialize (Hini p Hp). destruct p; [done|]. done.
  - intros q. rewrite percursos_avanca.
    intros [Hq|(n & -> & Hn)%list_elem_of_fmap]%elem_of_app; [by apply Hliv|].
    apply Forall_app. split; [by apply Hliv|].
    apply Forall_singleton. by apply Hns.
  - intros q. rewrite percursos_avanca.
    intros [Hq|(n & -> & Hn)%list_elem_of_fmap]%elem_of_app; [by apply Henc|].
    eapply encadeada_snoc; eauto. by apply Hns.
  - intros q x. rewrite percursos_avanca. unfold st'. simpl.
    intros [Hq|(n & -> & Hn)%list_elem_of_fmap]%elem_of_app Hx.
    + apply elem_of_union. right. by eapply Hcont.
    + apply elem_of_app in Hx as [Hx| ->%list_elem_of_singleton].
      * apply elem_of_union. right. by eapply Hcont.
      * apply elem_of_union. left. by apply elem_of_list_to_set.
  - intros v. rewrite percursos_avanca. unfold st'. simpl.
    intros [Hv%elem_of_list_to_set|Hv]%elem_of_union.
    + exists (p ++ [v]). rewrite last_snoc. split; [|done].
      apply elem_of_app. right. apply list_elem_of_fmap. eauto.
    + destruct (Hpontas v Hv) as (q & ? & ?). exists q.
      split; [|done]. apply elem_of_app. by left.
  - rewrite percursos_avanca, fmap_app. apply NoDup_app. split_and!.
    + done.
    + intros o (q & -> & Hq)%list_elem_of_fmap
             (q' & Heq & (n & -> & Hn)%list_elem_of_fmap)%list_elem_of_fmap.
      rewrite last_snoc in Heq.
      apply (proj2 (proj2 (Hns n Hn))).
      eapply Hcont; [exact Hq|]. by apply last_Some_elem_of.
    + rewrite <- list_fmap_compose.
      apply NoDup_fmap_2_strong; [|apply NoDup_novos].
      intros x y _ _. simpl. rewrite !last_snoc. by intros [= ->].
  - intros q. rewrite percursos_avanca.
    intros [Hq|(n & -> & Hn)%list_elem_of_fmap]%elem_of_app; [by apply Hnd|].
    apply NoDup_app. split_and!; [by apply Hnd| |apply NoDup_singleton].
    intros x Hx ->%list_elem_of_singleton.
    apply (proj2 (proj2 (Hns n Hn))). by eapply Hcont.
  - done.
Qed.

Lemma ordem_avanca :
  (r, c) ≠ destino →
  inv_estrutura m linhas colunas partida st →
  inv_ordem m linhas colunas partida destino st →
  inv_ordem m linhas colunas partida destino st'.
Proof.
  intros Hnd [Hponta _ _ _ _ Hpontas _ _ _] [Hord Hniv Hfecho Hnao Hraiz].
  pose proof frente_em_percursos as Hp.
  assert (last p = Some (r, c)) as Hlast
    by (apply Hponta; rewrite Hfila; set_solver).
  rewrite Hfila in Hord. apply StronglySorted_cons in Hord as [Hmin Hord].
  rewrite Forall_forall in Hmin. simpl in Hmin.
  assert (∀ q, q ∈ percursos st → length q ≤ S (length p)) as Hmax
    by (intros q; apply (Hniv (r, c, p)); by rewrite Hfila).
  assert (∀ e : entrada, e ∈ estende p <$> ns →
                         length e.2 = S (length p)) as Hnovo.
  { intros e (n & -> & _)%list_elem_of_fmap. simpl.
    rewrite length_app. simpl. lia. }
  assert (∀ e, e ∈ resto → e.2 ∈ percursos st) as Hresto.
  { intros e He. unfold percursos. rewrite Hfila.
    apply elem_of_app. right. apply list_elem_of_fmap. exists e.
    split; [done|]. set_solver. }
  split.
  - unfold st'. simpl. apply StronglySorted_app. split_and!; [|done|].
    + intros x y Hx Hy. cbv beta. rewrite (Hnovo y Hy).
      by apply Hmax, Hresto.
    + clear -Hnovo. induction (estende p <$> ns) as [|e l IH];
        constructor.
      * apply IH. intros. apply Hnovo. set_solver.
      * apply Forall_forall. intros y Hy. cbv beta.
        rewrite (Hnovo e), (Hnovo y) by set_solver. done.
  - intros e q He. rewrite percursos_avanca. intros Hq.
    assert (length p ≤ length e.2) as Hpe.
    { unfold st' in He. simpl in He.
      apply head_Some_elem_of, elem_of_app in He as [He|He].
      - by apply Hmin.
      - rewrite (Hnovo e He). lia. }
    apply elem_of_app in Hq as [Hq|(n & -> & _)%list_elem_of_fmap].
    + specialize (Hmax q Hq). lia.
    + rewrite length_app. simpl. lia.
  - intros q b n. unfold st' at 1. simpl. rewrite percursos_avanca.
    intros [Hq| ->%list_elem_of_singleton]%elem_of_app Hb Hadj Hliv.
    + destruct (Hfecho q b n Hq Hb Hadj Hliv) as (q' & ? & ? & ?).
      exists q'. split_and!; [|done..]. apply elem_of_app. by left.
    + rewrite Hlast in Hb. injection Hb as <-.
      destruct (decide (n ∈ visitados st)) as [Hv|Hv].
      * destruct (Hpontas n Hv) as (q' & Hq' & Hl').
        exists q'. split_and!; [|done|by apply Hmax].
        apply elem_of_app. by left.
      * exists (p ++ [n]). rewrite last_snoc, length_app. simpl.
        split_and!; [|done|lia].
        apply elem_of_app. right. apply list_elem_of_fmap. exists n.
        split; [done|]. by apply elem_of_novos.
  - intros q. unfold st'. simpl.
    intros [Hq| ->%list_elem_of_singleton]%elem_of_app; [by apply Hnao|].
    rewrite Hlast. by intros [= <-].
  - rewrite percursos_avanca. apply elem_of_app. by left.
Qed.

Lemma teto_intervalo_succ n :
  (0 ≤ n)%Z →
  teto_intervalo (n + 1) =
  (teto_intervalo n + if decide (n `mod` snapshot_interval = 0) then 1 else 0)%Z.
Proof.
  unfold teto_intervalo, snapshot_interval. intros Hn.
  case_decide; Z.div_mod_to_equations; lia.
Qed.

Lemma cadeia_snoc s v :
  cadeia s → (∀ a, a ∈ s → a ⊆ v) → cadeia (s ++ [v]).
Proof.
  intros Hs Hv i j a b Hij Ha Hb.
  destruct (decide (j < length s)) as [Hj|Hj].
  - rewrite lookup_app_l in Ha, Hb by lia. by apply (Hs i j).
  - assert (b = v) as ->.
    { rewrite lookup_app_r in Hb by lia.
      destruct (j - length s) as [|k]; simpl in Hb; [by simplify_eq|].
      by rewrite lookup_nil in Hb. }
    destruct (decide (i < length s)) as [Hi|Hi].
    + rewrite lookup_app_l in Ha by lia.
      by eapply Hv, list_elem_of_lookup_2.
    + rewrite lookup_app_r in Ha by lia.
      destruct (i - length s) as [|k]; simpl in Ha; [by simplify_eq|].
      by rewrite lookup_nil in Ha.
Qed.

Lemma fotos_avanca :
  (r, c) ≠ destino → inv_fotos st → inv_fotos st'.
Proof.
  intros Hnd [Hpasso Hconta Hcad Hsub].
  assert (0 ≤ step_counter st)%Z as Hpos by lia.
  split; unfold st'; simpl.
  - rewrite length_app. simpl. lia.
  - rewrite teto_intervalo_succ by done. unfold captura.
    destruct (decide (step_counter st `mod` snapshot_interval = 0)%Z).
    + rewrite decide_True by tauto. rewrite length_app. simpl. lia.
    + rewrite decide_False by tauto. lia.
  - unfold captura. case_decide; [|done]. by apply cadeia_snoc.
  - intros s Hs. transitivity (visitados st); [|set_solver].
    unfold captura in Hs. case_decide; [|by apply Hsub].
    apply elem_of_app in Hs as [Hs| ->%list_elem_of_singleton];
      [by apply Hsub|done].
Qed.
End Passo.

(** ** The whole search *)

Lemma inv_inicial m linhas colunas partida destino :
  livre m linhas colunas partida →
  inv m linhas colunas partida destino (estado_inicial partida).
Proof.
  intros Hl. unfold inv, estado_inicial. split_and!; split; simpl;
    unfold percursos; simpl.
  - intros r c p [= -> -> ->]%list_elem_of_singleton. by destruct partida.
  - by intros p ->%list_elem_of_singleton.
  - intros p ->%list_elem_of_singleton. by apply Forall_singleton.
  - by intros p ->%list_elem_of_singleton.
  - intros p x ->%list_elem_of_singleton. set_solver.
  - intros v ->%elem_of_singleton. exists [partida]. set_solver.
  - apply NoDup_singleton.
  - intros p ->%list_elem_of_singleton. apply NoDup_singleton.
  - done.
  - repeat constructor.
  - intros e q [= <-] ->%list_elem_of_singleton. simpl. lia.
  - intros p b c []%elem_of_nil.
  - intros p []%elem_of_nil.
  - set_solver.
  - done.
  - done.
  - intros i j a b _ Ha. by rewrite lookup_nil in Ha.
  - intros s []%elem_of_nil.
Qed.

Lemma laco_parada m linhas colunas partida destino fuel st st' :
  inv m linhas colunas partida destino st →
  laco fuel m linhas colunas destino st = Val st' →
  parada m linhas colunas partida destino st'.
Proof.
  apply (laco_regra (inv m linhas colunas partida destino)).
  clear. intros st r c p resto vis fl (He & Ho & Hf) Hfila Hd
                [-> ->]%expande_spec.
  split_and!.
  - by eapply estrutura_avanca.
  - by eapply ordem_avanca.
  - by eapply fotos_avanca.
Qed.

Lemma length_range n : length (range n) = n.
Proof. unfold range. by rewrite length_fmap, length_seq. Qed.

Lemma length_celulas linhas colunas :
  length (celulas linhas colunas) = linhas * colunas.
Proof.
  unfold celulas. rewrite <- (length_range linhas) at 2.
  induction (range linhas) as [|r rs IH]; [done|].
  rewrite bind_cons, length_app, length_fmap, length_range.
  simpl. f_equal. exact IH.
Qed.

(** The routes built so far end in distinct cells inside the bounds, so
    there are at most [linhas * colunas] of them. *)
Lemma contagem_percursos m linhas colunas partida st :
  inv_estrutura m linhas colunas partida st →
  length (percursos st) ≤ linhas * colunas.
Proof.
  intros He. rewrite <- length_celulas.
  assert (length (last <$> percursos st)
          ≤ length (Some <$> celulas linhas colunas)) as Hlen;
    [|by rewrite !length_fmap in Hlen].
  apply submseteq_length, NoDup_submseteq; [apply He|].
  intros o (q & -> & Hq)%list_elem_of_fmap.
  pose proof (ie_inicio _ _ _ _ _ He q Hq) as Hh.
  pose proof (ie_livre _ _ _ _ _ He q Hq) as Hl.
  destruct (last q) as [v|] eqn:Hv.
  - apply list_elem_of_fmap. exists v. split; [done|].
    apply elem_of_celulas.
    apply last_Some_elem_of in Hv.
    rewrite Forall_forall in Hl. by apply Hl.
  - apply last_None in Hv. by subst.
Qed.

Lemma expande_Val m linhas colunas r c p vf :
  (∀ q, dentro linhas colunas q = true → ∃ ch, marca m q.1 q.2 = Val ch) →
  ∃ vf', expande m linhas colunas r c p vf = Val vf'.
Proof.
  intros Hleg. apply for_each_Val. intros d t _. unfold tenta.
  destruct (dentro _ _ _) eqn:Hd; [|eauto].
  destruct (Hleg _ Hd) as [ch Hch]. simpl in Hch. rewrite Hch. simpl.
  case_decide; eauto.
Qed.

(** The loop stops within [linhas * colunas] iterations: the fuel given
    by [busca] is never used up. *)
Lemma laco_termina m linhas colunas partida destino fuel st :
  (∀ q, dentro linhas colunas q = true → ∃ ch, marca m q.1 q.2 = Val ch) →
  inv m linhas colunas partida destino st →
  linhas * colunas ≤ length (todos_segmentos_explorados st) + fuel →
  ∃ st', laco fuel m linhas colunas destino st = Val st'.
Proof.
  intros Hleg. revert st.
  induction fuel as [|fuel IH]; intros st Hinv Hfuel.
  - simpl. destruct (fila st) as [|e resto] eqn:Hf; [eauto|].
    destruct Hinv as (He & _). apply contagem_percursos in He.
    unfold percursos in He. rewrite Hf, length_app in He. simpl in He. lia.
  - simpl. destruct (fila st) as [|[[r c] p] resto] eqn:Hf; [eauto|].
    case_decide as Hd; [eauto|].
    destruct (expande_Val m linhas colunas r c p (visitados st, resto) Hleg)
      as [[vis fl] Hexp].
    rewrite Hexp. simpl. apply IH.
    + destruct Hinv as (He & Ho & Hfo).
      apply expande_spec in Hexp as [-> ->]. split_and!.
      * by eapply estrutura_avanca.
      * by eapply ordem_avanca.
      * by eapply fotos_avanca.
    + simpl. rewrite length_app. simpl. lia.
Qed.

Lemma ultimo_com_Some m ch cs p :
  ultimo_com m ch cs = Some p → p ∈ cs ∧ marca m p.1 p.2 = Val ch.
Proof.
  unfold ultimo_com. intros H%last_Some_elem_of.
  apply list_elem_of_filter in H. tauto.
Qed.

Lemma localiza_livre m linhas colunas partida destino :
  localiza m linhas colunas = Val (Some partida, Some destino) →
  (dentro linhas colunas partida = true ∧
   marca m partida.1 partida.2 = Val "E") ∧
  (dentro linhas colunas destino = true ∧
   marca m destino.1 destino.2 = Val "S").
Proof.
  intros [= Hp Hd]%localiza_spec. symmetry in Hp, Hd.
  apply ultimo_com_Some in Hp as [Hp%elem_of_celulas ?].
  apply ultimo_com_Some in Hd as [Hd%elem_of_celulas ?]. done.
Qed.

(** Once both markers are located the search returns, in one of the two
    stopping states. *)
Lemma busca_localizada m partida destino :
  m ≠ [] →
  localiza m (length m) (n_colunas m) = Val (Some partida, Some destino) →
  ∃ st, busca m = Val (Some st) ∧
        parada m (length m) (n_colunas m) partida destino st.
Proof.
  intros Hm Hloc. rewrite busca_unfold, Hloc by done. simpl.
  pose proof (localiza_livre _ _ _ _ _ Hloc) as [[Hpd Hpm] _].
  assert (inv m (length m) (n_colunas m) partida destino
              (estado_inicial partida)) as Hinv.
  { apply inv_inicial. split; [done|]. by rewrite Hpm. }
  destruct (laco_termina m (length m) (n_colunas m) partida destino
              (length m * n_colunas m) (estado_inicial partida))
    as [st Hst]; [|done|simpl; lia|].
  { intros q. by eapply localiza_legivel. }
  rewrite Hst. simpl. exists st. split; [done|]. by eapply laco_parada.
Qed.

(** Conversely a search that returned a state had located both markers. *)
Lemma busca_Some m st :
  busca m = Val (Some st) →
  ∃ partida destino,
    m ≠ [] ∧
    localiza m (length m) (n_colunas m) = Val (Some partida, Some destino) ∧
    parada m (length m) (n_colunas m) partida destino st.
Proof.
  intros Hb. assert (m ≠ []) as Hm by (by intros ->).
  pose proof Hb as Hb'. rewrite busca_unfold in Hb' by done.
  apply bind_Val in Hb' as ([[partida|] [destino|]] & Hloc & Hrun);
    try done.
  exists partida, destino. split_and!; [done..|].
  destruct (busca_localizada m partida destino Hm Hloc) as (st' & Hst & Hp).
  rewrite Hb in Hst. by simplify_eq.
Qed.

Lemma item_combustivel {A} (l : list A) i : item l i ≠ OutOfFuel.
Proof.
  unfold item, indice.
  destruct (_ && _); simpl; [|done]. by destruct (l !! _).
Qed.

Lemma for_each_combustivel {A S} (xs : list A) (body : A → S → res S) s :
  (∀ x t, body x t ≠ OutOfFuel) → for_each xs body s ≠ OutOfFuel.
Proof.
  intros Hb. revert s. induction xs as [|x xs IH]; intros s; simpl; [done|].
  specialize (Hb x s). destruct (body x s); simpl; auto.
Qed.

Lemma localiza_combustivel m linhas colunas :
  localiza m linhas colunas ≠ OutOfFuel.
Proof.
  apply for_each_combustivel. intros r pd.
  apply for_each_combustivel. intros c pd'. unfold examina, marca.
  pose proof (item_combustivel m r).
  destruct (item m r) as [linha| |]; simpl; [|done..].
  pose proof (item_combustivel linha c).
  destruct (item linha c); simpl; [|done..].
  repeat case_decide; done.
Qed.

(** The search never runs out of fuel. *)
Lemma busca_combustivel m : busca m ≠ OutOfFuel.
Proof.
  destruct m as [|l0 m']; [done|].
  rewrite busca_unfold by done. set (m := l0 :: m').
  pose proof (localiza_combustivel m (length m) (n_colunas m)) as Hl.
  destruct (localiza m _ _) as [[[partida|] [destino|]]| |] eqn:Hloc;
    try done.
  destruct (busca_localizada m partida destino) as (st & Hst & _);
    [done..|].
  rewrite busca_unfold, Hloc in Hst by done. by rewrite Hst.
Qed.

(** ** Row-major order of the scan *)

Lemma last_filter_Some {A} (P : A → Prop) `{!∀ x, Decision (P x)}
    (l : list A) x :
  last (filter P l) = Some x ↔
  ∃ l1 l2, l = l1 ++ x :: l2 ∧ P x ∧ Forall (fun y => ¬ P y) l2.
Proof.
  split.
  - induction l as [|a l IH] using rev_ind; [done|].
    rewrite filter_app, filter_cons, filter_nil. case_decide as Ha.
    + rewrite last_snoc. intros [= ->]. exists l, []. by rewrite Forall_nil.
    + rewrite app_nil_r. intros (l1 & l2 & -> & Hx & Hl2)%IH.
      exists l1, (l2 ++ [a]). rewrite <- app_assoc. simpl.
      split_and!; [done..|]. apply Forall_app. by rewrite Forall_singleton.
  - intros (l1 & l2 & -> & Hx & Hl2).
    rewrite filter_app, filter_cons_True by done.
    replace (filter P l2) with (@nil A); [by rewrite last_snoc|].
    symmetry. induction Hl2 as [|y l2 Hy _ IH]; [done|].
    by rewrite filter_cons_False.
Qed.

Lemma range_ordenada n : StronglySorted Z.lt (range n).
Proof.
  unfold range. generalize 0 as k. induction n as [|n IH]; intros k; simpl.
  - constructor.
  - constructor; [apply IH|]. apply Forall_forall.
    intros x (j & -> & Hj)%list_elem_of_fmap. apply elem_of_seq in Hj. lia.
Qed.

Lemma celulas_ordenadas linhas colunas :
  StronglySorted antes (celulas linhas colunas).
Proof.
  unfold celulas. pose proof (range_ordenada linhas) as Hs.
  induction Hs as [|r rs Hs IH Hr]; [constructor|].
  rewrite bind_cons. apply StronglySorted_app. split_and!.
  - intros x y (cx & -> & _)%list_elem_of_fmap
                (r' & (cy & -> & _)%list_elem_of_fmap & Hr')%list_elem_of_bind.
    left. simpl. rewrite Forall_forall in Hr. by apply Hr.
  - eapply StronglySorted_fmap; [|apply range_ordenada].
    intros x y Hxy. right. simpl. lia.
  - exact IH.
Qed.

Lemma antes_irrefl p q : antes p q → antes q p → False.
Proof. unfold antes. lia. Qed.

(** The cell the scan keeps for a marker is the last one in row-major
    order that carries it. *)
Lemma ultima_ultimo_com m ch p :
  ultima m ch p ↔
  ultimo_com m ch (celulas (length m) (n_colunas m)) = Some p.
Proof.
  unfold ultima, ultimo_com. rewrite last_filter_Some.
  pose proof (celulas_ordenadas (length m) (n_colunas m)) as Hs. split.
  - intros (Hd & Hm & Hult). apply elem_of_celulas in Hd.
    apply list_elem_of_split in Hd as (l1 & l2 & Heq).
    exists l1, l2. split_and!; [done..|].
    rewrite Heq in Hs. apply StronglySorted_app in Hs as (_ & _ & Hs).
    apply StronglySorted_cons in Hs as [Hs _].
    rewrite Forall_forall in Hs |- *. intros q Hq Hmq.
    destruct (Hult q) as [->|Hqp]; [|done| |].
    + apply elem_of_celulas. rewrite Heq. set_solver.
    + eapply antes_irrefl; by apply Hs.
    + eapply antes_irrefl; [by apply Hs|done].
  - intros (l1 & l2 & Heq & Hm & Hl2). split_and!; [|done|].
    + apply elem_of_celulas. rewrite Heq. set_solver.
    + intros q Hq%elem_of_celulas Hmq. rewrite Heq in Hq, Hs.
      apply elem_of_app in Hq as [Hq|[->|Hq]%elem_of_cons]; [|by left|].
      * right. apply StronglySorted_app in Hs as (Hs & _ & _).
        apply Hs; set_solver.
      * rewrite Forall_forall in Hl2. by destruct (Hl2 q).
Qed.

Lemma localiza_ultima m partida destino :
  localiza m (length m) (n_colunas m) = Val (Some partida, Some destino) →
  ultima m "E" partida ∧ ultima m "S" destino.
Proof.
  intros [= Hp Hd]%localiza_spec. by rewrite !ultima_ultimo_com.
Qed.

Lemma ultima_localiza m partida destino :
  grade m → ultima m "E" partida → ultima m "S" destino →
  localiza m (length m) (n_colunas m) = Val (Some partida, Some destino).
Proof.
  intros Hg Hp%ultima_ultimo_com Hd%ultima_ultimo_com.
  destruct (localiza_Val m Hg) as [pd Hpd]. rewrite Hpd.
  apply localiza_spec in Hpd as ->. by rewrite Hp, Hd.
Qed.

(** ** What the stopping states say *)

Lemma parada_rota m linhas colunas partida destino st p :
  parada m linhas colunas partida destino st →
  rota_ideal st = Some p →
  ∃ st1 resto,
    inv m linhas colunas partida destino st1 ∧
    fila st1 = (destino.1, destino.2, p) :: resto ∧
    st = chegada st1 p resto (captura st1 destino.1 destino.2 destino).
Proof.
  intros [[(He & _) _]|(st1 & p' & resto & Hinv & Hf & ->)] Hr.
  - rewrite (ie_rota _ _ _ _ _ He) in Hr. done.
  - simpl in Hr. injection Hr as ->. eauto.
Qed.

Lemma captura_chegada st destino :
  captura st destino.1 destino.2 destino
  = exploration_snapshots st ++ [visitados st].
Proof.
  unfold captura. rewrite decide_True; [done|]. right. by destruct destino.
Qed.

Lemma busca_encontrar m st :
  busca m = Val (Some st) →
  encontrar_melhor_rota m =
  Val (rota_ideal st,
       filtra_descartadas (rota_ideal st) (todos_segmentos_explorados st),
       m, exploration_snapshots st).
Proof. intros H. unfold encontrar_melhor_rota. by rewrite H. Qed.

Lemma encontrar_busca m p desc m' snaps :
  encontrar_melhor_rota m = Val (Some p, desc, m', snaps) →
  ∃ st, busca m = Val (Some st) ∧ rota_ideal st = Some p.
Proof.
  unfold encontrar_melhor_rota. intros ([st|] & Hb & H)%bind_Val; [|done].
  exists st. by simplify_eq.
Qed.

(** ** The route returned *)

(** C6. A route returned by [encontrar_melhor_rota] is a simple walk: its
    cells are inside the bounds and not ['#'], consecutive cells are
    4-adjacent, it starts at the start cell and no cell occurs twice. *)
Theorem rota_simples (m : mapa) (p : rota) (desc : list rota) (m' : mapa)
    (snaps : list (gset coord)) :
  encontrar_melhor_rota m = Val (Some p, desc, m', snaps) →
  Forall (transitavel m) p ∧ encadeada p ∧ NoDup p ∧
  ∃ partida, ultima m "E" partida ∧ head p = Some partida.
Proof.
  intros (st & Hb & Hr)%encontrar_busca.
  apply busca_Some in Hb as (partida & destino & Hm & Hloc & Hpar).
  destruct (parada_rota _ _ _ _ _ _ _ Hpar Hr)
    as (st1 & resto & (He & _ & _) & Hf & _).
  assert (p ∈ percursos st1) as Hp
    by (unfold percursos; rewrite Hf; set_solver).
  split_and!.
  - by apply (ie_livre _ _ _ _ _ He).
  - by apply (ie_encadeada _ _ _ _ _ He).
  - by apply (ie_nodup _ _ _ _ _ He).
  - exists partida. split; [by apply (localiza_ultima m partida destino)|].
    by apply (ie_inicio _ _ _ _ _ He).
Qed.

Lemma rota_simples_witness :
  Forall (transitavel mapa3) [(0, 0); (1, 0); (2, 0); (2, 1); (2, 2)]%Z ∧
  encadeada [(0, 0); (1, 0); (2, 0); (2, 1); (2, 2)]%Z ∧
  NoDup [(0, 0); (1, 0); (2, 0); (2, 1); (2, 2)]%Z ∧
  ∃ partida, ultima mapa3 "E" partida ∧
             head [(0, 0); (1, 0); (2, 0); (2, 1); (2, 2)]%Z = Some partida.
Proof.
  apply (rota_simples mapa3 _ saida_mapa3.1.1.2 saida_mapa3.1.2
           saida_mapa3.2).
  vm_compute. reflexivity.
Defined.

(** ** Snapshots *)

Lemma parada_fotos m linhas colunas partida destino st :
  parada m linhas colunas partida destino st →
  step_counter st = Z.of_nat (length (todos_segmentos_explorados st)) ∧
  Z.of_nat (length (exploration_snapshots st))
  = (teto_intervalo (step_counter st)
     + if decide (is_Some (rota_ideal st) ∧
                  ((step_counter st - 1) `mod` snapshot_interval ≠ 0)%Z)
       then 1 else 0)%Z ∧
  cadeia (exploration_snapshots st).
Proof.
  intros [[(He & _ & [Hp Hc Hcad Hsub]) _]
         |(st1 & p & resto & (_ & _ & [Hp Hc Hcad Hsub]) & Hf & ->)].
  - split_and!; [done| |done].
    rewrite decide_False; [lia|].
    rewrite (ie_rota _ _ _ _ _ He). by intros [[? ?] _].
  - rewrite captura_chegada. simpl.
    rewrite decide_True by set_solver.
    assert (0 ≤ step_counter st1)%Z by lia.
    split_and!.
    + rewrite length_app. simpl. lia.
    + rewrite length_app, teto_intervalo_succ by done. simpl.
      replace (step_counter st1 + 1 - 1)%Z with (step_counter st1) by lia.
      destruct (decide (step_counter st1 `mod` snapshot_interval = 0)%Z).
      * rewrite decide_False by tauto. lia.
      * rewrite decide_True by eauto. lia.
    + by apply cadeia_snoc.
Qed.

(** C5. After [n] dequeues there are ceil(n / 5) snapshots, and one more
    when the goal was dequeued at a step that is not a multiple of 5; each
    snapshot is a subset of every later one. *)
Theorem contagem_fotos (m : mapa) (st : estado) :
  busca m = Val (Some st) →
  let n := step_counter st in
  n = Z.of_nat (length (todos_segmentos_explorados st)) ∧
  Z.of_nat (length (exploration_snapshots st))
  = (teto_intervalo n
     + if decide (is_Some (rota_ideal st) ∧
                  ((n - 1) `mod` snapshot_interval ≠ 0)%Z)
       then 1 else 0)%Z ∧
  cadeia (exploration_snapshots st).
Proof.
  intros (partida & destino & _ & _ & Hpar)%busca_Some.
  by eapply parada_fotos.
Qed.

Lemma contagem_fotos_witness :
  let n := step_counter estado_mapa3 in
  n = Z.of_nat (length (todos_segmentos_explorados estado_mapa3)) ∧
  Z.of_nat (length (exploration_snapshots estado_mapa3))
  = (teto_intervalo n
     + if decide (is_Some (rota_ideal estado_mapa3) ∧
                  ((n - 1) `mod` snapshot_interval ≠ 0)%Z)
       then 1 else 0)%Z ∧
  cadeia (exploration_snapshots estado_mapa3).
Proof.
  apply (contagem_fotos mapa3 estado_mapa3). vm_compute. reflexivity.
Defined.

(** ** Discarded routes *)

Lemma is_wrong_path_segment_spec (s : gset coord) (seg : rota) :
  is_wrong_path_segment s seg = true ↔ Exists (fun x => x ∉ s) seg.
Proof.
  induction seg as [|x seg IH]; simpl.
  - rewrite Exists_nil. done.
  - rewrite Exists_cons. case_decide; tauto.
Qed.

Lemma descarta_spec (ri : rota) (s : gset coord) todos acc :
  descarta ri s todos acc
  = acc ++ filter (fun seg => Exists (fun x => x ∉ s) seg ∧ seg ≠ ri) todos.
Proof.
  revert acc. induction todos as [|seg todos IH]; intros acc; simpl.
  - by rewrite app_nil_r.
  - rewrite IH, filter_cons.
    destruct (is_wrong_path_segment s seg) eqn:Hw; simpl.
    + apply is_wrong_path_segment_spec in Hw.
      destruct (decide (seg ≠ ri)) as [Hne|Heq].
      * rewrite bool_decide_true, decide_True by done.
        by rewrite <- app_assoc.
      * rewrite bool_decide_false, decide_False by tauto. done.
    + rewrite decide_False; [done|]. intros [Hw' _].
      apply is_wrong_path_segment_spec in Hw'. congruence.
Qed.

Lemma filtra_descartadas_spec ri todos :
  ri ≠ Some [] → filtra_descartadas ri todos = descartadas_spec ri todos.
Proof.
  intros Hne. destruct ri as [[|x p]|]; [done| |done].
  unfold filtra_descartadas, descartadas_spec. rewrite descarta_spec. simpl.
  apply list_filter_iff. intros seg. rewrite !Exists_exists.
  change ({[x]} ∪ list_to_set p : gset coord) with
    (list_to_set (x :: p) : gset coord).
  by setoid_rewrite elem_of_list_to_set.
Qed.

(** C4. The second component returned is the list of explored segments
    that have a cell outside the route found and differ from it; without
    a route it is the list of explored segments of more than one cell.
    With a route, every discarded segment has a cell that is not on it. *)
Theorem descartadas_corretas (m : mapa) (st : estado) :
  busca m = Val (Some st) →
  encontrar_melhor_rota m
  = Val (rota_ideal st,
         descartadas_spec (rota_ideal st) (todos_segmentos_explorados st),
         m, exploration_snapshots st)
  ∧ ∀ p seg,
      rota_ideal st = Some p →
      seg ∈ descartadas_spec (rota_ideal st) (todos_segmentos_explorados st) →
      ∃ x, x ∈ seg ∧ x ∉ p.
Proof.
  intros Hb. split.
  - rewrite (busca_encontrar _ _ Hb), filtra_descartadas_spec; [done|].
    intros Hr.
    apply busca_Some in Hb as (partida & destino & _ & _ & Hpar).
    destruct (parada_rota _ _ _ _ _ _ _ Hpar Hr)
      as (st1 & resto & (He & _ & _) & Hf & _).
    assert ([] ∈ percursos st1) as Hp
      by (unfold percursos; rewrite Hf; set_solver).
    by apply (ie_inicio _ _ _ _ _ He) in Hp.
  - intros p seg -> Hseg. unfold descartadas_spec in Hseg.
    apply list_elem_of_filter in Hseg as [[Hex _] _].
    by apply Exists_exists in Hex.
Qed.

Lemma descartadas_corretas_witness :
  encontrar_melhor_rota mapa3
  = Val (rota_ideal estado_mapa3,
         descartadas_spec (rota_ideal estado_mapa3)
           (todos_segmentos_explorados estado_mapa3),
         mapa3, exploration_snapshots estado_mapa3)
  ∧ ∀ p seg,
      rota_ideal estado_mapa3 = Some p →
      seg ∈ descartadas_spec (rota_ideal estado_mapa3)
              (todos_segmentos_explorados estado_mapa3) →
      ∃ x, x ∈ seg ∧ x ∉ p.
Proof.
  apply (descartadas_corretas mapa3 estado_mapa3). vm_compute. reflexivity.
Defined.

(** ** Repeated markers *)

Lemma parada_fotos_nao_vazias m linhas colunas partida destino st :
  parada m linhas colunas partida destino st →
  exploration_snapshots st ≠ [].
Proof.
  intros Hpar. pose proof Hpar as (Hn & Hlen & _)%parada_fotos.
  assert (todos_segmentos_explorados st ≠ []) as Htodos.
  { destruct Hpar as [[(_ & Ho & _) Hf]|(st1 & p & resto & _ & _ & ->)].
    - pose proof (io_raiz _ _ _ _ _ _ Ho) as Hr.
      unfold percursos in Hr. rewrite Hf, app_nil_r in Hr.
      intros Heq. rewrite Heq in Hr. by apply elem_of_nil in Hr.
    - simpl. by destruct (todos_segmentos_explorados st1). }
  intros Heq. rewrite Heq in Hlen. simpl in Hlen.
  assert (1 ≤ step_counter st)%Z
    by (destruct (todos_segmentos_explorados st); simpl in *; [done|lia]).
  revert Hlen. unfold teto_intervalo, snapshot_interval.
  case_decide; Z.div_mod_to_equations; lia.
Qed.

(** C9. However many cells carry ['E'] or ['S'], the scan keeps for each
    marker the last cell in row-major order that carries it, and the
    search runs from and to these two cells and returns; what it returns
    is not the tuple of the missing-marker case. *)
Theorem marcadores_repetidos (m : mapa) (partida destino : coord) :
  grade m → ultima m "E" partida → ultima m "S" destino →
  localiza m (length m) (n_colunas m) = Val (Some partida, Some destino) ∧
  ∃ st,
    laco (length m * n_colunas m) m (length m) (n_colunas m) destino
         (estado_inicial partida) = Val st ∧
    busca m = Val (Some st) ∧
    encontrar_melhor_rota m ≠ Val (None, [], m, []).
Proof.
  intros Hg Hp Hd. pose proof (ultima_localiza m _ _ Hg Hp Hd) as Hloc.
  split; [done|].
  destruct (busca_localizada m partida destino (proj1 Hg) Hloc)
    as (st & Hb & Hpar).
  exists st. split_and!; [|done|].
  - rewrite busca_unfold, Hloc in Hb by apply Hg. simpl in Hb.
    destruct (laco _ _ _ _ _ _); simpl in Hb; by simplify_eq.
  - rewrite (busca_encontrar _ _ Hb). intros [= _ _ Hs].
    by apply parada_fotos_nao_vazias in Hpar.
Qed.

Lemma ultima_decide m ch p :
  bool_decide
    (ultimo_com m ch (celulas (length m) (n_colunas m)) = Some p) = true →
  ultima m ch p.
Proof. intros H%bool_decide_eq_true. by apply ultima_ultimo_com. Qed.

Lemma marcadores_repetidos_witness :
  localiza mapa_repetido (length mapa_repetido) (n_colunas mapa_repetido)
  = Val (Some (1, 1)%Z, Some (2, 0)%Z) ∧
  ∃ st,
    laco (length mapa_repetido * n_colunas mapa_repetido) mapa_repetido
         (length mapa_repetido) (n_colunas mapa_repetido) (2, 0)%Z
         (estado_inicial (1, 1)%Z) = Val st ∧
    busca mapa_repetido = Val (Some st) ∧
    encontrar_melhor_rota mapa_repetido ≠ Val (None, [], mapa_repetido, []).
Proof.
  apply (marcadores_repetidos mapa_repetido (1, 1)%Z (2, 0)%Z).
  - apply (bool_decide_unpack _). vm_compute. exact I.
  - apply ultima_decide. vm_compute. reflexivity.
  - apply ultima_decide. vm_compute. reflexivity.
Defined.

(** ** Shortest routes *)

(** Breadth-first order: while every queued route has at least [K] cells,
    the end of any walk of fewer than [K] cells is the end of a route
    that was already dequeued and is not longer than the walk. *)
Lemma alcance m linhas colunas partida destino st K :
  inv m linhas colunas partida destino st →
  (∀ e : entrada, e ∈ fila st → K ≤ length e.2) →
  ∀ q b,
    head q = Some partida → last q = Some b →
    Forall (livre m linhas colunas) q → encadeada q → length q < K →
    ∃ e, e ∈ todos_segmentos_explorados st ∧ last e = Some b ∧
         length e ≤ length q.
Proof.
  intros (He & Ho & _) HK.
  assert (∀ q0, q0 ∈ percursos st → length q0 < K →
                q0 ∈ todos_segmentos_explorados st) as Hja.
  { intros q0 [Hq0|(e & -> & Hq0)%list_elem_of_fmap]%elem_of_app Hlen;
      [done|]. specialize (HK e Hq0). lia. }
  induction q as [|x q IH] using rev_ind; intros b Hh Hl Hliv Henc Hlen;
    [done|].
  rewrite last_snoc in Hl. injection Hl as ->.
  destruct (decide (q = [])) as [->|Hq].
  - injection Hh as ->. exists [partida]. split_and!; [|done..].
    apply Hja; [apply Ho|done].
  - apply last_is_Some in Hq as [a Ha]. pose proof Ha as Ha'.
    apply last_Some in Ha' as [q' ->].
    rewrite <- app_assoc in Henc. simpl in Henc.
    apply encadeada_snoc_inv in Henc as [Henc Hadj].
    apply Forall_app in Hliv as [Hliv Hb]. rewrite Forall_singleton in Hb.
    rewrite length_app in Hlen. simpl in Hlen.
    destruct (IH a) as (e & He_todos & He_last & He_len);
      [by destruct q'|done..|lia|].
    destruct (io_fecho _ _ _ _ _ _ Ho e a b He_todos He_last Hadj Hb)
      as (q0 & Hq0 & Hq0_last & Hq0_len).
    exists q0. rewrite length_app. simpl.
    split_and!; [|done|lia]. apply Hja; [done|lia].
Qed.

(** C1. When the goal can be reached from the start over cells that are
    not blocked, the function returns a walk from the start to the goal,
    and no such walk has fewer cells: its number of hops is the distance
    from the start to the goal. *)
Theorem rota_minima (m : mapa) (partida destino : coord) :
  grade m → ultima m "E" partida → ultima m "S" destino →
  (∃ q, caminho m partida destino q) →
  ∃ p desc snaps,
    encontrar_melhor_rota m = Val (Some p, desc, m, snaps) ∧
    caminho m partida destino p ∧
    ∀ q, caminho m partida destino q → length p ≤ length q.
Proof.
  intros Hg Hp Hd Halc.
  pose proof (ultima_localiza m _ _ Hg Hp Hd) as Hloc.
  destruct (busca_localizada m partida destino (proj1 Hg) Hloc)
    as (st & Hb & Hpar).
  rewrite (busca_encontrar _ _ Hb).
  assert (∀ st0 K q,
            inv m (length m) (n_colunas m) partida destino st0 →
            (∀ e : entrada, e ∈ fila st0 → K ≤ length e.2) →
            caminho m partida destino q → K ≤ length q) as Hmin.
  { intros st0 K q Hinv HK (Hh & Hl & Hliv & Henc).
    destruct (decide (K ≤ length q)) as [|Hlt]; [done|].
    destruct (alcance _ _ _ _ _ _ K Hinv HK q destino)
      as (e & He & Hel & _); [done..|lia|].
    destruct Hinv as (_ & Ho & _).
    by destruct (io_nao_destino _ _ _ _ _ _ Ho e He). }
  destruct Hpar as [[Hinv Hf]|(st1 & p & resto & Hinv & Hf & ->)].
  - destruct Halc as [q Hq].
    assert (S (length q) ≤ length q); [|lia].
    apply (Hmin st (S (length q)) q Hinv); [|done].
    rewrite Hf. by intros e ?%elem_of_nil.
  - simpl. eexists p, _, _. split; [done|].
    destruct Hinv as (He & Ho & Hfo).
    assert (p ∈ percursos st1) as Hpp
      by (unfold percursos; rewrite Hf; set_solver).
    split.
    + split_and!.
      * by apply (ie_inicio _ _ _ _ _ He).
      * transitivity (Some (destino.1, destino.2)); [|by destruct destino].
        apply (ie_ponta _ _ _ _ _ He). rewrite Hf. set_solver.
      * by apply (ie_livre _ _ _ _ _ He).
      * by apply (ie_encadeada _ _ _ _ _ He).
    + intros q Hq. apply (Hmin st1 (length p) q); [done| |done].
      pose proof (io_ordenada _ _ _ _ _ _ Ho) as Hs. rewrite Hf in Hs.
      apply StronglySorted_cons in Hs as [Hs _].
      rewrite Forall_forall in Hs. rewrite Hf.
      intros e [->|He']%elem_of_cons; [done|]. by apply Hs.
Qed.

Lemma rota_minima_witness :
  ∃ p desc snaps,
    encontrar_melhor_rota mapa3 = Val (Some p, desc, mapa3, snaps) ∧
    caminho mapa3 (0, 0)%Z (2, 2)%Z p ∧
    ∀ q, caminho mapa3 (0, 0)%Z (2, 2)%Z q → length p ≤ length q.
Proof.
  apply (rota_minima mapa3 (0, 0)%Z (2, 2)%Z).
  - apply (bool_decide_unpack _). vm_compute. exact I.
  - apply ultima_decide. vm_compute. reflexivity.
  - apply ultima_decide. vm_compute. reflexivity.
  - exists [(0, 0); (0, 1); (0, 0); (1, 0); (2, 0); (2, 1); (2, 2)]%Z.
    split_and!; [reflexivity..| |].
    + apply (bool_decide_unpack _). vm_compute. exact I.
    + simpl. unfold adjacente. simpl. lia.
Defined.

(** ** The final classification matrix *)

Module PlotFacts.
Import Plot.

Lemma item_indice {A} (l : list A) i x :
  item l i = Val x ↔ ∃ k, indice (length l) i = Val k ∧ l !! k = Some x.
Proof.
  unfold item. rewrite bind_Val. split; intros (k & Hk & H); exists k;
    (split; [done|]); destruct (l !! k); by simplify_eq.
Qed.

Lemma forma_linha linhas colunas mm i linha :
  forma linhas colunas mm → mm !! i = Some linha → length linha = colunas.
Proof.
  intros [_ Hf] Hl. rewrite Forall_forall in Hf.
  by eapply Hf, list_elem_of_lookup_2.
Qed.

Lemma le_spec linhas colunas mm r c x :
  forma linhas colunas mm → le mm r c = Val x →
  ∃ i j, indice linhas r = Val i ∧ indice colunas c = Val j ∧
         celula mm i j = Some x.
Proof.
  intros Hf (linha & (i & Hi & Hl)%item_indice
                   & (j & Hj & Hx)%item_indice)%bind_Val.
  exists i, j. rewrite (forma_linha _ _ _ _ _ Hf Hl) in Hj.
  rewrite (proj1 Hf) in Hi. split_and!; [done..|].
  unfold celula. rewrite Hl. done.
Qed.

Lemma atribui_spec linhas colunas mm r c v mm' :
  forma linhas colunas mm → atribui mm r c v = Val mm' →
  ∃ i j, indice linhas r = Val i ∧ indice colunas c = Val j ∧
         forma linhas colunas mm' ∧
         celula mm' i j = Some v ∧
         ∀ i' j', (i', j') ≠ (i, j) → celula mm' i' j' = celula mm i' j'.
Proof.
  intros Hf. unfold atribui.
  intros (i & Hi & (linha & (i' & Hi' & Hl)%item_indice
                          & (j & Hj & [= <-])%bind_Val)%bind_Val)%bind_Val.
  rewrite Hi in Hi'. injection Hi' as <-.
  pose proof (forma_linha _ _ _ _ _ Hf Hl) as Hlen.
  rewrite Hlen in Hj. rewrite (proj1 Hf) in Hi.
  pose proof Hi as [Hi_lt _]%indice_Val.
  pose proof Hj as [Hj_lt _]%indice_Val.
  exists i, j. split_and!; [done..| | |].
  - destruct Hf as [Hf1 Hf2]. split; [by rewrite length_insert|].
    apply Forall_insert; [done|]. by rewrite length_insert.
  - unfold celula. rewrite list_lookup_insert_eq by (rewrite (proj1 Hf); lia).
    simpl. apply list_lookup_insert_eq. lia.
  - intros i' j' Hne. unfold celula.
    destruct (decide (i' = i)) as [->|Hi'].
    + rewrite list_lookup_insert_eq by (rewrite (proj1 Hf); lia).
      rewrite Hl. simpl. apply list_lookup_insert_ne. congruence.
    + by rewrite list_lookup_insert_ne.
Qed.

Lemma forma_zeros linhas colunas : forma linhas colunas (zeros linhas colunas).
Proof.
  unfold forma, zeros. rewrite length_replicate. split; [done|].
  apply Forall_replicate, length_replicate.
Qed.

(** After the first pass every entry holds the class of its marker. *)
Lemma base_spec m linhas colunas mm :
  base m linhas colunas = Val mm →
  forma linhas colunas mm ∧
  ∀ i j, i < linhas → j < colunas →
    ∃ ch, marca m (Z.of_nat i) (Z.of_nat j) = Val ch ∧
          celula mm i j = Some (classe ch).
Proof.
  unfold base.
  rewrite (for_each_celulas _ _
             (fun r c mm => ch ← marca m r c; atribui mm r c (classe ch))).
  intros Hrun.
  apply (for_each_inv
           (fun done mm =>
              forma linhas colunas mm ∧
              ∀ i j, (Z.of_nat i, Z.of_nat j) ∈ done →
                ∃ ch, marca m (Z.of_nat i) (Z.of_nat j) = Val ch ∧
                      celula mm i j = Some (classe ch))) in Hrun.
  - destruct Hrun as [Hf Hc]. split; [done|]. intros i j Hi Hj.
    apply Hc, elem_of_celulas, dentro_spec. simpl. lia.
  - split; [apply forma_zeros|]. by intros i j ?%elem_of_nil.
  - intros done x t t' [Hf Hc] Hx (ch & Hch & Hat)%bind_Val.
    destruct (atribui_spec _ _ _ _ _ _ _ Hf Hat)
      as (i & j & Hi & Hj & Hf' & Hv & Hoth).
    apply elem_of_celulas, dentro_spec in Hx.
    rewrite indice_nonneg in Hi, Hj by lia.
    injection Hi as <-. injection Hj as <-.
    split; [done|]. intros i j Hij.
    destruct (decide ((i, j) = (Z.to_nat x.1, Z.to_nat x.2))) as [Heq|Hne].
    + injection Heq as -> ->. rewrite !Z2Nat.id by lia. eauto.
    + rewrite Hoth by done. apply Hc.
      apply elem_of_app in Hij as [Hij|Hij%list_elem_of_singleton]; [done|].
      subst x. cbn [fst snd] in Hne. by rewrite !Nat2Z.id in Hne.
Qed.

Lemma atinge_snoc linhas colunas done p i j :
  atinge linhas colunas (Some (done ++ [p])) i j ↔
  atinge linhas colunas (Some done) i j ∨
  (indice linhas p.1 = Val i ∧ indice colunas p.2 = Val j).
Proof.
  unfold atinge. simpl. rewrite Exists_app, Exists_cons, Exists_nil. tauto.
Qed.

(** A painting pass gives [v] to the entries that satisfied [cond] and
    are subscripted by some pair of the list, and leaves the others. *)
Lemma pinta_lista linhas colunas (cond : Z → bool) v l0 mm mm' :
  cond v = false → forma linhas colunas mm →
  for_each l0
    (fun p mm => x ← le mm p.1 p.2;
                 if cond x then atribui mm p.1 p.2 v else Val mm) mm
  = Val mm' →
  forma linhas colunas mm' ∧
  ∀ i j x, celula mm i j = Some x →
    celula mm' i j
    = Some (if decide (cond x = true ∧ atinge linhas colunas (Some l0) i j)
            then v else x).
Proof.
  intros Hv Hf Hrun.
  apply (for_each_inv
           (fun done t =>
              forma linhas colunas t ∧
              ∀ i j x, celula mm i j = Some x →
                celula t i j
                = Some (if decide (cond x = true ∧
                                   atinge linhas colunas (Some done) i j)
                        then v else x))) in Hrun; [done| |].
  - split; [done|]. intros i j x Hx. rewrite decide_False; [done|].
    intros [_ H]. unfold atinge in H. simpl in H. by apply Exists_nil in H.
  - clear Hrun. intros done p t t' [Hft IH] _ (y & Hle & Hres)%bind_Val.
    destruct (le_spec _ _ _ _ _ _ Hft Hle) as (i0 & j0 & Hi0 & Hj0 & Hy).
    assert (∀ i j, (i, j) ≠ (i0, j0) →
              (atinge linhas colunas (Some (done ++ [p])) i j ↔
               atinge linhas colunas (Some done) i j)) as Hfora.
    { intros i j Hne. rewrite atinge_snoc, Hi0, Hj0.
      split; [|tauto]. intros [?|[[= <-] [= <-]]]; done. }
    assert (atinge linhas colunas (Some (done ++ [p])) i0 j0) as Hdentro
      by (apply atinge_snoc; tauto).
    destruct (cond y) eqn:Hcy.
    + destruct (atribui_spec _ _ _ _ _ _ _ Hft Hres)
        as (i1 & j1 & Hi1 & Hj1 & Hft' & Hval & Hoth).
      rewrite Hi0 in Hi1. rewrite Hj0 in Hj1.
      injection Hi1 as <-. injection Hj1 as <-.
      split; [done|]. intros i j x Hx.
      destruct (decide ((i, j) = (i0, j0))) as [[= -> ->]|Hne].
      * rewrite Hval. specialize (IH _ _ _ Hx). rewrite Hy in IH.
        injection IH as IH.
        destruct (decide (cond x = true ∧
                          atinge linhas colunas (Some done) i0 j0))
          as [HD|HD].
        -- congruence.
        -- subst y. by rewrite decide_True.
      * rewrite Hoth, (IH _ _ _ Hx) by done. f_equal.
        apply decide_ext. by rewrite Hfora.
    + injection Hres as <-. split; [done|]. intros i j x Hx.
      rewrite (IH _ _ _ Hx). f_equal.
      destruct (decide ((i, j) = (i0, j0))) as [[= -> ->]|Hne].
      * specialize (IH _ _ _ Hx). rewrite Hy in IH. injection IH as IH.
        destruct (decide (cond x = true ∧
                          atinge linhas colunas (Some done) i0 j0))
          as [HD|HD].
        -- rewrite decide_True; [done|]. split; [tauto|done].
        -- subst y. rewrite decide_False; [done|]. intros [? _]. congruence.
      * apply decide_ext. by rewrite Hfora.
Qed.

Lemma pinta_spec linhas colunas (cond : Z → bool) v cells mm mm' :
  cond v = false → forma linhas colunas mm →
  pinta cond v cells mm = Val mm' →
  forma linhas colunas mm' ∧
  ∀ i j x, celula mm i j = Some x →
    celula mm' i j
    = Some (if decide (cond x = true ∧ atinge linhas colunas cells i j)
            then v else x).
Proof.
  intros Hv Hf. destruct cells as [[|p l0]|]; unfold pinta.
  - intros [= <-]. split; [done|]. intros i j x Hx.
    rewrite decide_False; [done|]. intros [_ H]. by apply Exists_nil in H.
  - by apply (pinta_lista linhas colunas cond v (p :: l0)).
  - intros [= <-]. split; [done|]. intros i j x Hx.
    rewrite decide_False; [done|]. intros [_ H]. by apply Exists_nil in H.
Qed.

End PlotFacts.

Import Plot.

(** C8. In the matrix built by [plotar_mapa_final] an entry whose marker
    is ['#'], ['E'] or ['S'] keeps the class of the marker; any other entry
    is 4 when a pair of [rota_ideal] subscripts it, otherwise 5 when a pair
    of [final_visited_cells] does, otherwise 0. So 5 is only painted over
    free entries, 4 replaces 0 and 5 on the route, and the classes 1, 2 and
    3 are never overwritten. *)
Theorem camadas_do_mapa_final (m : mapa) (ri : option rota)
    (desc : option (list rota)) (vis : option (list coord))
    (mm : matriz) (i j : nat) (ch : ascii) :
  plotar_mapa_final m ri desc vis = Val mm →
  i < length m → j < n_colunas m →
  marca m (Z.of_nat i) (Z.of_nat j) = Val ch →
  let rota_aqui := atinge (length m) (n_colunas m) ri i j in
  let visitada_aqui := atinge (length m) (n_colunas m) vis i j in
  celula mm i j
  = Some (if decide (classe ch ≠ 0%Z) then classe ch
          else if decide rota_aqui then 4%Z
          else if decide visitada_aqui then 5%Z else 0%Z)
  ∧ (classe ch ≠ 0%Z → celula mm i j = Some (classe ch))
  ∧ (celula mm i j = Some 5%Z →
     classe ch = 0%Z ∧ visitada_aqui ∧ ¬ rota_aqui)
  ∧ (classe ch = 0%Z → rota_aqui → celula mm i j = Some 4%Z).
Proof.
  intros Hrun Hi Hj Hch rota_aqui visitada_aqui.
  assert (celula mm i j
          = Some (if decide (classe ch ≠ 0%Z) then classe ch
                  else if decide rota_aqui then 4%Z
                  else if decide visitada_aqui then 5%Z else 0%Z)) as Hval.
  { unfold plotar_mapa_final in Hrun.
    apply bind_Val in Hrun as (linha0 & Hl0%item_0 & Hrun).
    replace (length linha0) with (n_colunas m) in Hrun
      by (unfold n_colunas; by rewrite Hl0).
    apply bind_Val in Hrun as (mm0 & Hbase & Hrun).
    apply bind_Val in Hrun as (mm1 & Hp1 & Hp2).
    apply PlotFacts.base_spec in Hbase as [Hf0 Hb].
    destruct (Hb i j Hi Hj) as (ch' & Hch' & Hv0).
    rewrite Hch in Hch'. injection Hch' as <-.
    apply (PlotFacts.pinta_spec (length m) (n_colunas m)) in Hp1
      as [Hf1 Hv1]; [|done..].
    apply (PlotFacts.pinta_spec (length m) (n_colunas m)) in Hp2
      as [Hf2 Hv2]; [|done..].
    rewrite (Hv2 i j _ (Hv1 i j _ Hv0)). f_equal.
    fold rota_aqui visitada_aqui.
    destruct (decide (classe ch ≠ 0%Z)) as [Hc|Hc].
    - rewrite (decide_False (P := _ ∧ visitada_aqui)); last first.
      { intros [?%bool_decide_eq_true _]. done. }
      rewrite decide_False; [done|].
      intros [H _]. apply orb_true_iff in H as [H|H];
        apply bool_decide_eq_true in H; [done|].
      unfold classe in H, Hc. repeat case_decide; done.
    - apply dec_stable in Hc.
      destruct (decide visitada_aqui) as [Hvis|Hvis].
      + rewrite (decide_True (P := _ ∧ visitada_aqui));
          [|by rewrite Hc].
        destruct (decide rota_aqui).
        * by rewrite decide_True.
        * rewrite decide_False; [done|]. tauto.
      + rewrite (decide_False (P := _ ∧ visitada_aqui)) by tauto.
        rewrite Hc. destruct (decide rota_aqui).
        * by rewrite decide_True.
        * rewrite decide_False; [done|]. tauto. }
  rewrite Hval. split_and!; [done| | |].
  - intros Hc. by rewrite decide_True.
  - destruct (decide (classe ch ≠ 0%Z)) as [Hc|Hc%dec_stable].
    { intros [= Heq]. unfold classe in Heq. repeat case_decide; done. }
    destruct (decide rota_aqui); [done|].
    destruct (decide visitada_aqui); done.
  - intros Hc Hr. rewrite decide_False by (by intros ?).
    by rewrite decide_True.
Qed.

Lemma camadas_do_mapa_final_witness :
  let rota_aqui :=
    atinge 3 3 (Some [(0, 0); (1, 0); (2, 0); (2, 1); (2, 2)]%Z) 1 0 in
  let visitada_aqui := atinge 3 3 (Some [(0, 1); (1, 0); (2, 2)]%Z) 1 0 in
  celula [[2; 5; 1]; [4; 1; 0]; [4; 4; 3]]%Z 1 0
  = Some (if decide (classe " " ≠ 0%Z) then classe " "
          else if decide rota_aqui then 4%Z
          else if decide visitada_aqui then 5%Z else 0%Z)
  ∧ (classe " " ≠ 0%Z →
     celula [[2; 5; 1]; [4; 1; 0]; [4; 4; 3]]%Z 1 0 = Some (classe " "))
  ∧ (celula [[2; 5; 1]; [4; 1; 0]; [4; 4; 3]]%Z 1 0 = Some 5%Z →
     classe " " = 0%Z ∧ visitada_aqui ∧ ¬ rota_aqui)
  ∧ (classe " " = 0%Z → rota_aqui →
     celula [[2; 5; 1]; [4; 1; 0]; [4; 4; 3]]%Z 1 0 = Some 4%Z).
Proof.
  apply (camadas_do_mapa_final mapa3
           (Some [(0, 0); (1, 0); (2, 0); (2, 1); (2, 2)]%Z) None
           (Some [(0, 1); (1, 0); (2, 2)]%Z)
           [[2; 5; 1]; [4; 1; 0]; [4; 4; 3]]%Z 1 0 " ").
  - vm_compute. reflexivity.
  - simpl. lia.
  - vm_compute. lia.
  - vm_compute. reflexivity.
Defined.

(** * Further properties of the search *)

(** ** From the result to the stopping state *)

Lemma ultima_unica m ch p q : ultima m ch p → ultima m ch q → p = q.
Proof. rewrite !ultima_ultimo_com. congruence. Qed.

Lemma encontrar_casos m ri desc m' snaps :
  encontrar_melhor_rota m = Val (ri, desc, m', snaps) →
  m' = m ∧
  ((busca m = Val None ∧ ri = None ∧ desc = [] ∧ snaps = []) ∨
   ∃ partida destino st,
     ultima m "E" partida ∧ ultima m "S" destino ∧
     busca m = Val (Some st) ∧
     parada m (length m) (n_colunas m) partida destino st ∧
     ri = rota_ideal st ∧
     desc = filtra_descartadas (rota_ideal st)
              (todos_segmentos_explorados st) ∧
     snaps = exploration_snapshots st).
Proof.
  unfold encontrar_melhor_rota. intros ([st|] & Hb & H)%bind_Val.
  - injection H as <- <- <- <-. split; [done|]. right.
    pose proof Hb as (partida & destino & _ & Hloc & Hpar)%busca_Some.
    apply localiza_ultima in Hloc as [? ?].
    exists partida, destino, st. done.
  - injection H as <- <- <- <-. split; [done|]. by left.
Qed.

Lemma encontrar_parada m ri desc m' snaps partida destino :
  encontrar_melhor_rota m = Val (ri, desc, m', snaps) →
  ultima m "E" partida → ultima m "S" destino →
  ∃ st,
    busca m = Val (Some st) ∧
    parada m (length m) (n_colunas m) partida destino st ∧
    ri = rota_ideal st ∧
    desc = filtra_descartadas (rota_ideal st)
             (todos_segmentos_explorados st) ∧
    snaps = exploration_snapshots st.
Proof.
  intros Hrun Hp Hd. pose proof Hrun as [_ Hc]%encontrar_casos.
  destruct Hc as [(Hb & _)|(p' & d' & st & Hp' & Hd' & Hb & Hpar & ?)].
  - assert (m ≠ []) as Hm by (by intros ->).
    rewrite busca_unfold in Hb by done.
    apply bind_Val in Hb as (pd & Hloc & Hb).
    apply localiza_spec in Hloc as ->.
    apply ultima_ultimo_com in Hp, Hd. rewrite Hp, Hd in Hb.
    apply bind_Val in Hb as (? & _ & [=]).
  - rewrite (ultima_unica _ _ _ _ Hp Hp'), (ultima_unica _ _ _ _ Hd Hd').
    eauto.
Qed.

(** In a stopping state the dequeued routes are the first of the routes
    of a state at the head of the loop, with the same visited set. *)
Lemma parada_todos m linhas colunas partida destino st :
  parada m linhas colunas partida destino st →
  ∃ st1 resto,
    inv m linhas colunas partida destino st1 ∧
    percursos st1 = todos_segmentos_explorados st ++ resto ∧
    visitados st1 = visitados st.
Proof.
  intros [[Hinv Hf]|(st1 & p & resto & Hinv & Hf & ->)].
  - exists st, []. unfold percursos. rewrite Hf. done.
  - exists st1, (snd <$> resto). unfold percursos. rewrite Hf. simpl.
    by rewrite <- app_assoc.
Qed.

Lemma filtra_descartadas_sublist ri todos :
  filtra_descartadas ri todos `sublist_of` todos.
Proof.
  unfold filtra_descartadas. destruct ri as [[|x p]|];
    [apply sublist_filter| |apply sublist_filter].
  rewrite descarta_spec. apply sublist_filter.
Qed.

Lemma filtra_descartadas_elem_of ri todos seg :
  seg ∈ filtra_descartadas ri todos → seg ∈ todos.
Proof. intros H. eapply elem_of_sublist, filtra_descartadas_sublist. done. Qed.

(** A route built by the search is a walk from the start to its end. *)
Lemma percurso_caminho m partida destino st p :
  inv m (length m) (n_colunas m) partida destino st →
  p ∈ percursos st →
  ∃ b, last p = Some b ∧ caminho m partida b p ∧ NoDup p.
Proof.
  intros (He & _ & _) Hp.
  pose proof (ie_inicio _ _ _ _ _ He p Hp) as Hh.
  destruct (last p) as [b|] eqn:Hl; [|apply last_None in Hl; by subst].
  exists b. split; [done|]. split; [|by apply (ie_nodup _ _ _ _ _ He)].
  split_and!; [done..| |].
  - by apply (ie_livre _ _ _ _ _ He).
  - by apply (ie_encadeada _ _ _ _ _ He).
Qed.

Lemma NoDup_fmap_elem_of_inj {A B} (f : A → B) (l : list A) x y :
  NoDup (f <$> l) → x ∈ l → y ∈ l → f x = f y → x = y.
Proof.
  induction l as [|a l IH]; [by intros _ ?%elem_of_nil|].
  rewrite fmap_cons, NoDup_cons, !elem_of_cons.
  intros [Ha Hnd] [->|Hx] [->|Hy] Hf; [done| | |by apply IH].
  - destruct Ha. rewrite Hf. apply list_elem_of_fmap. eauto.
  - destruct Ha. rewrite <- Hf. apply list_elem_of_fmap. eauto.
Qed.

(** ** The end of the route *)

(** X1. A route returned ends at the goal cell, the last ['S'] cell of
    the map in row-major order. *)
Theorem rota_termina_no_destino (m : mapa) (p : rota) (desc : list rota)
    (m' : mapa) (snaps : list (gset coord)) :
  encontrar_melhor_rota m = Val (Some p, desc, m', snaps) →
  ∃ destino, ultima m "S" destino ∧ last p = Some destino.
Proof.
  intros [_ [(_ & [=] & _)|(partida & destino & st & _ & Hd & _ & Hpar
                            & Hr & _)]]%encontrar_casos.
  symmetry in Hr.
  destruct (parada_rota _ _ _ _ _ _ _ Hpar Hr)
    as (st1 & resto & (He & _ & _) & Hf & _).
  exists destino. split; [done|].
  transitivity (Some (destino.1, destino.2)); [|by destruct destino].
  apply (ie_ponta _ _ _ _ _ He). rewrite Hf. set_solver.
Qed.

Lemma rota_termina_no_destino_witness :
  ∃ destino, ultima mapa3 "S" destino ∧
             last [(0, 0); (1, 0); (2, 0); (2, 1); (2, 2)]%Z = Some destino.
Proof.
  apply (rota_termina_no_destino mapa3 _ saida_mapa3.1.1.2 saida_mapa3.1.2
           saida_mapa3.2).
  vm_compute. reflexivity.
Defined.

(** ** Unreachable goal *)

(** X2. On a grid whose goal cannot be reached from the start over cells
    that are not blocked, the function raises nothing and returns no
    route. *)
Theorem sem_rota_se_inalcancavel (m : mapa) (partida destino : coord) :
  grade m → ultima m "E" partida → ultima m "S" destino →
  ¬ (∃ q, caminho m partida destino q) →
  ∃ desc snaps, encontrar_melhor_rota m = Val (None, desc, m, snaps).
Proof.
  intros Hg Hp Hd Hno.
  pose proof (ultima_localiza m _ _ Hg Hp Hd) as Hloc.
  destruct (busca_localizada m partida destino (proj1 Hg) Hloc)
    as (st & Hb & Hpar).
  rewrite (busca_encontrar _ _ Hb).
  destruct (rota_ideal st) as [p|] eqn:Hr; [|eauto].
  destruct Hno.
  destruct (parada_rota _ _ _ _ _ _ _ Hpar Hr)
    as (st1 & resto & Hinv & Hf & _).
  assert (p ∈ percursos st1) as Hpp
    by (unfold percursos; rewrite Hf; set_solver).
  destruct (percurso_caminho _ _ _ _ _ Hinv Hpp) as (b & Hl & Hc & _).
  exists p. replace destino with b; [done|].
  destruct Hinv as (He & _).
  rewrite (ie_ponta _ _ _ _ _ He destino.1 destino.2) in Hl
    by (rewrite Hf; set_solver).
  injection Hl as <-. by destruct destino.
Qed.

(** In [mapa_murado] a walk that starts left of the wall stays there. *)
Lemma mapa_murado_lado q a b :
  Forall (transitavel mapa_murado) q → encadeada q →
  head q = Some a → last q = Some b → (a.2 < 2)%Z → (b.2 < 2)%Z.
Proof.
  revert a. induction q as [|x q IH]; intros a Hliv Henc Hh Hl Ha; [done|].
  injection Hh as ->. destruct q as [|y q]; [by injection Hl as <-|].
  apply Forall_cons in Hliv as [_ Hliv]. destruct Henc as [Hadj Henc].
  apply (IH y); [done..|].
  apply Forall_cons in Hliv as [[Hd Hy] _].
  apply dentro_spec in Hd as [Hd _]. change (length mapa_murado) with 2 in Hd.
  unfold adjacente in Hadj. destruct y as [y1 y2]. simpl in *.
  destruct (decide (y2 = 2%Z)) as [->|]; [|lia].
  assert (y1 = 0 ∨ y1 = 1)%Z as [-> | ->] by lia; by vm_compute in Hy.
Qed.

Lemma sem_rota_se_inalcancavel_witness :
  ∃ desc snaps,
    encontrar_melhor_rota mapa_murado = Val (None, desc, mapa_murado, snaps).
Proof.
  apply (sem_rota_se_inalcancavel mapa_murado (0, 0)%Z (0, 3)%Z).
  - apply (bool_decide_unpack _). vm_compute. exact I.
  - apply ultima_decide. vm_compute. reflexivity.
  - apply ultima_decide. vm_compute. reflexivity.
  - intros (q & Hh & Hl & Hliv & Henc).
    pose proof (mapa_murado_lado q _ _ Hliv Henc Hh Hl) as H.
    simpl in H. lia.
Defined.

(** ** Bounds on the work *)

Lemma parada_todos_nao_vazio m linhas colunas partida destino st :
  parada m linhas colunas partida destino st →
  todos_segmentos_explorados st ≠ [].
Proof.
  intros [[(_ & Ho & _) Hf]|(st1 & p & resto & _ & _ & ->)].
  - pose proof (io_raiz _ _ _ _ _ _ Ho) as Hr.
    unfold percursos in Hr. rewrite Hf, app_nil_r in Hr.
    intros Heq. rewrite Heq in Hr. by apply elem_of_nil in Hr.
  - simpl. by destruct (todos_segmentos_explorados st1).
Qed.

Lemma percurso_curto m linhas colunas partida st p :
  inv_estrutura m linhas colunas partida st →
  p ∈ percursos st → length p ≤ linhas * colunas.
Proof.
  intros He Hp. rewrite <- length_celulas.
  apply submseteq_length, NoDup_submseteq;
    [by apply (ie_nodup _ _ _ _ _ He)|].
  intros x Hx. apply elem_of_celulas.
  pose proof (ie_livre _ _ _ _ _ He p Hp) as Hl.
  rewrite Forall_forall in Hl. by apply Hl.
Qed.

(** X3. A search dequeues at most [linhas * colunas] entries, keeps at
    most as many snapshots, and no explored segment has more than
    [linhas * colunas] cells. *)
Theorem esforco_limitado (m : mapa) (st : estado) :
  busca m = Val (Some st) →
  (0 < step_counter st ≤ Z.of_nat (length m * n_colunas m))%Z ∧
  length (exploration_snapshots st) ≤ length m * n_colunas m ∧
  ∀ seg, seg ∈ todos_segmentos_explorados st →
         length seg ≤ length m * n_colunas m.
Proof.
  intros (partida & destino & _ & _ & Hpar)%busca_Some.
  pose proof (parada_fotos _ _ _ _ _ _ Hpar) as (Hn & Hlen & _).
  pose proof (parada_todos_nao_vazio _ _ _ _ _ _ Hpar) as Hne.
  destruct (parada_todos _ _ _ _ _ _ Hpar)
    as (st1 & resto & (He & _) & Hperc & _).
  pose proof (contagem_percursos _ _ _ _ _ He) as Hcont.
  rewrite Hperc, length_app in Hcont.
  assert (0 < length (todos_segmentos_explorados st))
    by (destruct (todos_segmentos_explorados st); simpl; [done|lia]).
  split_and!; [lia..| |].
  - revert Hlen. unfold teto_intervalo, snapshot_interval.
    case_decide; Z.div_mod_to_equations; lia.
  - intros seg Hseg. apply (percurso_curto _ _ _ _ _ _ He).
    rewrite Hperc. set_solver.
Qed.

Lemma esforco_limitado_witness :
  (0 < step_counter estado_mapa3 ≤ Z.of_nat (length mapa3 * n_colunas mapa3))%Z
  ∧ length (exploration_snapshots estado_mapa3)
    ≤ length mapa3 * n_colunas mapa3
  ∧ ∀ seg, seg ∈ todos_segmentos_explorados estado_mapa3 →
           length seg ≤ length mapa3 * n_colunas mapa3.
Proof.
  apply (esforco_limitado mapa3 estado_mapa3). vm_compute. reflexivity.
Defined.

(** ** The discarded segments *)

(** X4. Every discarded segment is a simple walk that starts at the start
    cell and runs over cells inside the bounds that are not blocked. *)
Theorem descartadas_sao_caminhos (m : mapa) (ri : option rota)
    (desc : list rota) (m' : mapa) (snaps : list (gset coord)) (seg : rota) :
  encontrar_melhor_rota m = Val (ri, desc, m', snaps) →
  seg ∈ desc →
  ∃ partida b, ultima m "E" partida ∧ caminho m partida b seg ∧ NoDup seg.
Proof.
  intros [_ [(_ & _ & -> & _)|(partida & destino & st & Hp & _ & _ & Hpar
                               & _ & -> & _)]]%encontrar_casos Hseg.
  { by apply elem_of_nil in Hseg. }
  apply filtra_descartadas_elem_of in Hseg.
  destruct (parada_todos _ _ _ _ _ _ Hpar) as (st1 & resto & Hinv & Hperc & _).
  destruct (percurso_caminho m partida destino st1 seg Hinv)
    as (b & _ & Hc & Hnd); [rewrite Hperc; set_solver|].
  eauto.
Qed.

Lemma descartadas_sao_caminhos_witness :
  ∃ partida b,
    ultima mapa3 "E" partida ∧
    caminho mapa3 partida b [(0, 0); (0, 1)]%Z ∧ NoDup [(0, 0); (0, 1)]%Z.
Proof.
  apply (descartadas_sao_caminhos mapa3 saida_mapa3.1.1.1 saida_mapa3.1.1.2
           saida_mapa3.1.2 saida_mapa3.2).
  - vm_compute. reflexivity.
  - apply (bool_decide_unpack _). vm_compute. exact I.
Defined.

(** X5. No two discarded segments end in the same cell, and none ends
    where the route found ends: every cell is the end of at most one
    route the search builds. *)
Theorem descartadas_pontas_distintas (m : mapa) (ri : option rota)
    (desc : list rota) (m' : mapa) (snaps : list (gset coord)) :
  encontrar_melhor_rota m = Val (ri, desc, m', snaps) →
  NoDup (last <$> desc) ∧
  ∀ p seg, ri = Some p → seg ∈ desc → last seg ≠ last p.
Proof.
  intros [_ [(_ & _ & -> & _)|(partida & destino & st & _ & _ & _ & Hpar
                               & -> & -> & _)]]%encontrar_casos.
  { split; [constructor|]. by intros p seg _ ?%elem_of_nil. }
  destruct (parada_todos _ _ _ _ _ _ Hpar)
    as (st1 & resto & (He & _) & Hperc & _).
  pose proof (ie_pontas_nodup _ _ _ _ _ He) as Hnd.
  rewrite Hperc, fmap_app in Hnd. apply NoDup_app in Hnd as (Hnd & _ & _).
  split.
  - eapply sublist_NoDup; [exact Hnd|].
    apply fmap_sublist, filtra_descartadas_sublist.
  - intros p seg Hr Hseg Heq.
    pose proof (filtra_descartadas_elem_of _ _ _ Hseg) as Hseg'.
    destruct (parada_rota _ _ _ _ _ _ _ Hpar Hr)
      as (st2 & resto2 & (He2 & _) & Hf2 & ->).
    assert (p ∈ todos_segmentos_explorados st2 ++ [p]) as Hp by set_solver.
    simpl in *.
    pose proof (NoDup_fmap_elem_of_inj last _ seg p Hnd Hseg' Hp Heq) as ->.
    assert (p ∈ percursos st2) as Hpp
      by (unfold percursos; rewrite Hf2; set_solver).
    pose proof (ie_inicio _ _ _ _ _ He2 p Hpp) as Hh.
    destruct p as [|x p]; [done|].
    unfold filtra_descartadas in Hseg. rewrite descarta_spec in Hseg.
    apply list_elem_of_filter in Hseg as [[_ Hne] _]. done.
Qed.

Lemma descartadas_pontas_distintas_witness :
  NoDup (last <$> saida_mapa3.1.1.2) ∧
  ∀ p seg, saida_mapa3.1.1.1 = Some p → seg ∈ saida_mapa3.1.1.2 →
           last seg ≠ last p.
Proof.
  apply (descartadas_pontas_distintas mapa3 saida_mapa3.1.1.1
           saida_mapa3.1.1.2 saida_mapa3.1.2 saida_mapa3.2).
  vm_compute. reflexivity.
Defined.

(** X6. When no route is returned, the cells at which the discarded
    segments end are exactly the cells other than the start that can be
    reached from it: the search has explored everything reachable. *)
Theorem descartadas_cobrem_alcancaveis (m : mapa) (desc : list rota)
    (m' : mapa) (snaps : list (gset coord)) (partida destino b : coord) :
  encontrar_melhor_rota m = Val (None, desc, m', snaps) →
  ultima m "E" partida → ultima m "S" destino → b ≠ partida →
  (∃ q, caminho m partida b q) ↔ (∃ seg, seg ∈ desc ∧ last seg = Some b).
Proof.
  intros Hrun Hp Hd Hb.
  destruct (encontrar_parada _ _ _ _ _ _ _ Hrun Hp Hd)
    as (st & _ & Hpar & Hr & -> & _).
  symmetry in Hr. rewrite Hr.
  destruct Hpar as [[Hinv Hf]|(? & ? & ? & _ & _ & ->)]; [|done].
  assert (percursos st = todos_segmentos_explorados st) as Hperc
    by (unfold percursos; by rewrite Hf, app_nil_r).
  split.
  - intros (q & Hh & Hl & Hliv & Henc).
    destruct (alcance _ _ _ _ _ _ (S (length q)) Hinv) with (q := q) (b := b)
      as (e & He & Hel & _); [|done..|lia|].
    { rewrite Hf. by intros e ?%elem_of_nil. }
    exists e. split; [|done]. unfold filtra_descartadas.
    apply list_elem_of_filter. split; [|done].
    destruct Hinv as (Hest & _).
    assert (head e = Some partida) as Hhe
      by (apply (ie_inicio _ _ _ _ _ Hest); rewrite Hperc; done).
    destruct e as [|x [|y e]]; simpl in *; [done| |lia].
    congruence.
  - intros (seg & Hseg%filtra_descartadas_elem_of & Hl).
    rewrite <- Hperc in Hseg.
    destruct (percurso_caminho _ _ _ _ _ Hinv Hseg) as (b' & Hl' & Hc & _).
    exists seg. congruence.
Qed.

Lemma descartadas_cobrem_alcancaveis_witness :
  (∃ q, caminho mapa_murado (0, 0)%Z (1, 1)%Z q) ↔
  (∃ seg, seg ∈ saida_murado.1.1.2 ∧ last seg = Some (1, 1)%Z).
Proof.
  apply (descartadas_cobrem_alcancaveis mapa_murado saida_murado.1.1.2
           saida_murado.1.2 saida_murado.2 (0, 0)%Z (0, 3)%Z (1, 1)%Z).
  - vm_compute. reflexivity.
  - apply ultima_decide. vm_compute. reflexivity.
  - apply ultima_decide. vm_compute. reflexivity.
  - discriminate.
Defined.

(** ** The last snapshot *)

(** X7. When a route is returned, the last snapshot is the visited set at
    the arrival: it holds every cell of the route and of the discarded
    segments, and only cells inside the bounds that are not blocked. The
    caller paints the final map from it (line 275). *)
Theorem ultima_foto_completa (m : mapa) (p : rota) (desc : list rota)
    (m' : mapa) (snaps : list (gset coord)) :
  encontrar_melhor_rota m = Val (Some p, desc, m', snaps) →
  ∃ final,
    last snaps = Some final ∧
    (∀ x, x ∈ p → x ∈ final) ∧
    (∀ seg x, seg ∈ desc → x ∈ seg → x ∈ final) ∧
    (∀ x, x ∈ final → transitavel m x).
Proof.
  intros [_ [(_ & [=] & _)|(partida & destino & st & _ & _ & _ & Hpar
                            & Hr & -> & ->)]]%encontrar_casos.
  symmetry in Hr.
  destruct (parada_rota _ _ _ _ _ _ _ Hpar Hr)
    as (st1 & resto & (He & _) & Hf & ->).
  pose proof (filtra_descartadas_elem_of
                (rota_ideal (chegada st1 p resto
                   (captura st1 destino.1 destino.2 destino)))
                (todos_segmentos_explorados (chegada st1 p resto
                   (captura st1 destino.1 destino.2 destino)))) as Hdesc.
  set (desc := filtra_descartadas _ _) in *. clearbody desc.
  exists (visitados st1). simpl in *. rewrite captura_chegada.
  rewrite decide_True by set_solver. rewrite last_snoc.
  assert (∀ q, q ∈ todos_segmentos_explorados st1 ++ [p] →
               q ∈ percursos st1) as Hsub.
  { intros q Hq. unfold percursos. rewrite Hf. set_solver. }
  split_and!; [done| | |].
  - intros x Hx. apply (ie_contido _ _ _ _ _ He p); [|done].
    apply Hsub. set_solver.
  - intros seg x Hseg%Hdesc Hx.
    apply (ie_contido _ _ _ _ _ He seg); [|done]. by apply Hsub.
  - intros x Hx. destruct (ie_pontas _ _ _ _ _ He x Hx) as (q & Hq & Hl).
    pose proof (ie_livre _ _ _ _ _ He q Hq) as Hliv.
    rewrite Forall_forall in Hliv. by apply Hliv, last_Some_elem_of.
Qed.

Lemma ultima_foto_completa_witness :
  ∃ final,
    last saida_mapa3.2 = Some final ∧
    (∀ x, x ∈ [(0, 0); (1, 0); (2, 0); (2, 1); (2, 2)]%Z → x ∈ final) ∧
    (∀ seg x, seg ∈ saida_mapa3.1.1.2 → x ∈ seg → x ∈ final) ∧
    (∀ x, x ∈ final → transitavel mapa3 x).
Proof.
  apply (ultima_foto_completa mapa3 _ saida_mapa3.1.1.2 saida_mapa3.1.2).
  vm_compute. reflexivity.
Defined.

(** ** Maps that raise *)

Lemma linhas_longas_marca m p :
  Forall (fun linha => n_colunas m ≤ length linha) m →
  dentro (length m) (n_colunas m) p = true →
  ∃ ch, marca m p.1 p.2 = Val ch.
Proof.
  intros Hlong [Hr Hc]%dentro_spec. unfold marca.
  destruct (lookup_lt_is_Some_2 m (Z.to_nat p.1)) as [linha Hl]; [lia|].
  assert (n_colunas m ≤ length linha) as Hlen
    by (eapply (proj1 (Forall_forall _ _) Hlong), list_elem_of_lookup_2; eauto).
  destruct (lookup_lt_is_Some_2 linha (Z.to_nat p.2)) as [ch Hch]; [lia|].
  exists ch. apply bind_Val. exists linha.
  by rewrite !item_nonneg by lia.
Qed.

Lemma localiza_legivel_Val m linhas colunas :
  (∀ p, dentro linhas colunas p = true → ∃ ch, marca m p.1 p.2 = Val ch) →
  ∃ pd, localiza m linhas colunas = Val pd.
Proof.
  intros Hleg. unfold localiza. rewrite (for_each_celulas _ _ (examina m)).
  apply for_each_Val. intros x t Hx%elem_of_celulas.
  destruct (Hleg x Hx) as [ch Hch].
  unfold examina. rewrite Hch. simpl. repeat case_decide; eauto.
Qed.

(** X8. The function raises [IndexError] exactly on the empty list and on
    a map with a row shorter than the first one; on every other map it
    returns a result. *)
Theorem erro_de_indice (m : mapa) :
  (encontrar_melhor_rota m = IndexError ↔
   m = [] ∨ Exists (fun linha => length linha < n_colunas m) m)
  ∧ (encontrar_melhor_rota m = IndexError ∨
     ∃ out, encontrar_melhor_rota m = Val out).
Proof.
  assert (m ≠ [] → Exists (fun linha => length linha < n_colunas m) m →
          encontrar_melhor_rota m = IndexError) as Hcurta.
  { intros Hm (linha & Hin & Hlen)%Exists_exists.
    unfold encontrar_melhor_rota. rewrite busca_unfold by done.
    pose proof (localiza_combustivel m (length m) (n_colunas m)) as Hfuel.
    destruct (localiza m _ _) as [pd| |] eqn:Hloc; [|done..]. exfalso.
    apply list_elem_of_lookup in Hin as [r Hr].
    destruct (localiza_legivel _ _ _ _
                (Z.of_nat r, Z.of_nat (length linha)) Hloc) as [ch Hch].
    { apply dentro_spec. simpl. apply lookup_lt_Some in Hr. lia. }
    simpl in Hch. unfold marca in Hch.
    apply bind_Val in Hch as (linha' & Hl' & Hch).
    rewrite item_nonneg, Nat2Z.id in Hl' by lia.
    rewrite Hr in Hl'. injection Hl' as <-.
    rewrite item_nonneg, Nat2Z.id in Hch by lia.
    apply lookup_lt_Some in Hch. lia. }
  assert (m ≠ [] → ¬ Exists (fun linha => length linha < n_colunas m) m →
          ∃ out, encontrar_melhor_rota m = Val out) as Hboa.
  { intros Hm Hlong. apply not_Exists_Forall in Hlong; [|intros ?; apply _].
    assert (Forall (fun linha => n_colunas m ≤ length linha) m) as Hlong'
      by (eapply Forall_impl; [exact Hlong|]; simpl; intros; lia).
    destruct (localiza_legivel_Val m (length m) (n_colunas m))
      as [[op od] Hloc]; [intros p; by apply linhas_longas_marca|].
    destruct op as [partida|], od as [destino|];
      try (unfold encontrar_melhor_rota; rewrite busca_unfold, Hloc by done;
           simpl; eauto; fail).
    destruct (busca_localizada m partida destino Hm Hloc) as (st & Hb & _).
    rewrite (busca_encontrar _ _ Hb). eauto. }
  destruct (decide (m = [])) as [->|Hm].
  { split; [split; [by left|done]|]. by left. }
  destruct (decide (Exists (fun linha => length linha < n_colunas m) m))
    as [Hex|Hex].
  - split; [split; [by right|by intros _; apply Hcurta]|].
    left. by apply Hcurta.
  - destruct (Hboa Hm Hex) as [out Hout]. split; [|eauto].
    rewrite Hout. split; [done|]. by intros [?|?].
Qed.

(** ** Further invariants of the loop *)

(** A property [J] kept by every iteration that does not reach the goal
    holds, with [inv], of the state in which the search stopped or of the
    state whose front entry was the goal. *)
Lemma busca_invariante (J : estado → Prop) m partida destino st :
  busca m = Val (Some st) →
  ultima m "E" partida → ultima m "S" destino →
  J (estado_inicial partida) →
  (∀ st0 r c (p : rota) (resto : list entrada),
     inv m (length m) (n_colunas m) partida destino st0 → J st0 →
     fila st0 = (r, c, p) :: resto → (r, c) ≠ destino →
     let ns := novos m (length m) (n_colunas m) (visitados st0) (r, c) in
     J (avanca st0 p (captura st0 r c destino)
          (list_to_set ns ∪ visitados st0) (resto ++ (estende p <$> ns)))) →
  (inv m (length m) (n_colunas m) partida destino st ∧ J st ∧ fila st = []) ∨
  (∃ st1 p resto,
     inv m (length m) (n_colunas m) partida destino st1 ∧ J st1 ∧
     fila st1 = (destino.1, destino.2, p) :: resto ∧
     st = chegada st1 p resto (captura st1 destino.1 destino.2 destino)).
Proof.
  intros Hb Hp Hd HJ0 HJ.
  pose proof Hb as (p' & d' & Hm & Hloc & _)%busca_Some.
  pose proof Hloc as [Hp' Hd']%localiza_ultima.
  rewrite <- (ultima_unica _ _ _ _ Hp Hp'),
          <- (ultima_unica _ _ _ _ Hd Hd') in Hloc. clear p' d' Hp' Hd'.
  rewrite busca_unfold, Hloc in Hb by done. simpl in Hb.
  apply bind_Val in Hb as (st' & Hrun & [= ->]).
  pose proof (localiza_livre _ _ _ _ _ Hloc) as [[Hpd Hpm] _].
  apply (laco_regra
           (fun s => inv m (length m) (n_colunas m) partida destino s ∧ J s))
    in Hrun.
  - destruct Hrun as [[[? ?] ?]|(st1 & p & resto & [? ?] & ? & ?)];
      [left|right]; eauto 10.
  - clear Hrun. intros st0 r c p resto vis fl [Hinv HJ0'] Hf Hne
                       [-> ->]%expande_spec.
    split; [|by apply HJ].
    destruct Hinv as (He & Ho & Hfo). split_and!.
    + by eapply estrutura_avanca.
    + by eapply ordem_avanca.
    + by eapply fotos_avanca.
  - split; [|done]. apply inv_inicial. split; [done|]. by rewrite Hpm.
Qed.


Lemma frente_minima m linhas colunas partida destino st r c p resto :
  inv m linhas colunas partida destino st →
  fila st = (r, c, p) :: resto →
  ∀ e : entrada, e ∈ fila st → length p ≤ length e.2.
Proof.
  intros (_ & Ho & _) Hf.
  pose proof (io_ordenada _ _ _ _ _ _ Ho) as Hs. rewrite Hf in Hs.
  apply StronglySorted_cons in Hs as [Hs _].
  rewrite Forall_forall in Hs. rewrite Hf.
  intros e [->|He]%elem_of_cons; [done|]. by apply Hs.
Qed.

Lemma minimos_avanca m partida destino st r c (p : rota)
    (resto : list entrada) :
  inv m (length m) (n_colunas m) partida destino st →
  minimos m partida st →
  fila st = (r, c, p) :: resto →
  let ns := novos m (length m) (n_colunas m) (visitados st) (r, c) in
  minimos m partida
    (avanca st p (captura st r c destino)
       (list_to_set ns ∪ visitados st) (resto ++ (estende p <$> ns))).
Proof.
  intros Hinv Hmin Hf ns e b q. subst ns.
  rewrite (percursos_avanca m (length m) (n_colunas m) destino st r c p
             resto Hf).
  intros [He|(n & -> & Hn)%list_elem_of_fmap]%elem_of_app Hl Hq;
    [by eapply Hmin|].
  rewrite last_snoc in Hl. injection Hl as <-.
  rewrite length_app. simpl.
  destruct (decide (length p + 1 ≤ length q)) as [|Hlt]; [done|exfalso].
  apply elem_of_novos in Hn as (Hadj & Hliv & Hvis).
  destruct Hinv as (He & Ho & Hfo).
  destruct Hq as (Hh & Hl & Hlq & Henc).
  apply last_Some in Hl as [q' ->].
  destruct (decide (q' = [])) as [->|Hq'].
  - injection Hh as ->. apply Hvis.
    apply (ie_contido _ _ _ _ _ He [partida]); [apply Ho|set_solver].
  - apply last_is_Some in Hq' as [a Ha]. pose proof Ha as [q'' ->]%last_Some.
    rewrite <- app_assoc in Henc. simpl in Henc.
    apply encadeada_snoc_inv in Henc as [Henc Han].
    apply Forall_app in Hlq as [Hlq' _].
    rewrite length_app in Hlt. simpl in Hlt.
    assert (inv m (length m) (n_colunas m) partida destino st) as Hinv
      by done.
    pose proof (frente_minima _ _ _ _ _ _ _ _ _ _ Hinv Hf) as Hfr.
    destruct (alcance m (length m) (n_colunas m) partida destino st
                (length p) Hinv Hfr (q'' ++ [a]) a)
      as (e' & He' & Hle' & _); [by destruct q''|done..|lia|].
    destruct (io_fecho _ _ _ _ _ _ Ho e' a n He' Hle' Han Hliv)
      as (q0 & Hq0 & Hlq0 & _).
    apply Hvis. apply (ie_contido _ _ _ _ _ He q0 n Hq0).
    by apply last_Some_elem_of.
Qed.

(** X9. Every discarded segment is a shortest walk from the start to the
    cell at which it ends: the search reaches each cell by a route with
    the fewest hops, not only the goal. *)
Theorem descartadas_minimas (m : mapa) (ri : option rota)
    (desc : list rota) (m' : mapa) (snaps : list (gset coord))
    (partida b : coord) (seg q : rota) :
  encontrar_melhor_rota m = Val (ri, desc, m', snaps) →
  ultima m "E" partida →
  seg ∈ desc → last seg = Some b → caminho m partida b q →
  length seg ≤ length q.
Proof.
  intros [_ [(_ & _ & -> & _)|(p' & destino & st & Hp' & Hd & Hb & _
                               & _ & -> & _)]]%encontrar_casos Hp Hseg Hl Hq.
  { by apply elem_of_nil in Hseg. }
  apply filtra_descartadas_elem_of in Hseg.
  destruct (busca_invariante (minimos m partida) m partida destino st)
    as [(Hinv & Hmin & Hf)|(st1 & p & resto & Hinv & Hmin & Hf & ->)];
    [done..| | | |].
  - intros e b' q' ->%list_elem_of_singleton _ (Hh & _). simpl.
    destruct q'; [done|simpl; lia].
  - intros st0 r c p resto Hinv HJ Hf _. by apply minimos_avanca.
  - apply (Hmin seg b q); [|done..].
    unfold percursos. rewrite Hf. set_solver.
  - apply (Hmin seg b q); [|done..].
    unfold percursos. rewrite Hf. simpl in Hseg. set_solver.
Qed.

Lemma descartadas_minimas_witness :
  length [(0, 0); (0, 1)]%Z ≤ length [(0, 0); (1, 0); (0, 0); (0, 1)]%Z.
Proof.
  apply (descartadas_minimas mapa3 saida_mapa3.1.1.1 saida_mapa3.1.1.2
           saida_mapa3.1.2 saida_mapa3.2 (0, 0)%Z (0, 1)%Z).
  - vm_compute. reflexivity.
  - apply ultima_decide. vm_compute. reflexivity.
  - apply (bool_decide_unpack _). vm_compute. exact I.
  - reflexivity.
  - split_and!; [reflexivity..| |].
    + apply (bool_decide_unpack _). vm_compute. exact I.
    + simpl. unfold adjacente. simpl. lia.
Defined.

Lemma primeira_foto_captura partida st r c destino :
  primeira_foto partida st →
  head (captura st r c destino) = Some {[ partida ]} ∨
  (captura st r c destino = exploration_snapshots st ∧
   head (exploration_snapshots st) = Some {[ partida ]}).
Proof.
  unfold captura. intros [(Hs & Hf & Hv)|Hh].
  - left. rewrite decide_True by (left; by rewrite Hs).
    by rewrite Hf, Hv.
  - case_decide; [left|by right].
    by destruct (exploration_snapshots st).
Qed.

(** X10. The first snapshot returned by a search is the singleton of the
    start cell: it is taken at the first dequeue, before any neighbour
    is visited. *)
Theorem primeira_foto_partida (m : mapa) (ri : option rota)
    (desc : list rota) (m' : mapa) (snaps : list (gset coord))
    (partida destino : coord) :
  encontrar_melhor_rota m = Val (ri, desc, m', snaps) →
  ultima m "E" partida → ultima m "S" destino →
  head snaps = Some {[ partida ]}.
Proof.
  intros Hrun Hp Hd.
  destruct (encontrar_parada _ _ _ _ _ _ _ Hrun Hp Hd)
    as (st & Hb & Hpar & _ & _ & ->).
  destruct (busca_invariante (primeira_foto partida) m partida destino st)
    as [(Hinv & HJ & Hf)|(st1 & p & resto & Hinv & HJ & Hf & ->)];
    [done..| | | |].
  - left. done.
  - intros st0 r c p resto Hinv HJ Hf _ ns. right. simpl.
    by destruct (primeira_foto_captura partida st0 r c destino HJ)
      as [?|[-> ?]].
  - destruct HJ as [(Hs & _)|?]; [|done].
    pose proof (parada_todos_nao_vazio _ _ _ _ _ _ Hpar) as Hne.
    destruct Hinv as (_ & _ & Hfo).
    rewrite (if_passo _ Hfo) in Hs.
    destruct (todos_segmentos_explorados st); [done|simpl in Hs; lia].
  - simpl. rewrite captura_chegada. rewrite decide_True by set_solver.
    destruct HJ as [(_ & -> & ->)|HJ]; [done|].
    by destruct (exploration_snapshots st1).
Qed.

Lemma primeira_foto_partida_witness :
  head saida_mapa3.2 = Some {[ (0, 0)%Z ]}.
Proof.
  apply (primeira_foto_partida mapa3 saida_mapa3.1.1.1 saida_mapa3.1.1.2
           saida_mapa3.1.2 saida_mapa3.2 (0, 0)%Z (2, 2)%Z).
  - vm_compute. reflexivity.
  - apply ultima_decide. vm_compute. reflexivity.
  - apply ultima_decide. vm_compute. reflexivity.
Defined.

(** * Further properties of the matrices *)

Module MatrizFacts.
Import Plot PlotFacts.

Lemma indice_subscrito n i :
  (- Z.of_nat n ≤ i < Z.of_nat n)%Z → ∃ k, indice n i = Val k.
Proof.
  intros H. unfold indice. destruct (i <? 0)%Z eqn:Hi.
  - rewrite (proj2 (andb_true_iff _ _)); [eauto|]. lia.
  - rewrite (proj2 (andb_true_iff _ _)); [eauto|]. lia.
Qed.

Lemma indice_fora n i :
  ¬ (- Z.of_nat n ≤ i < Z.of_nat n)%Z → indice n i = IndexError.
Proof.
  intros H. unfold indice. destruct (i <? 0)%Z eqn:Hi.
  - rewrite (proj2 (andb_false_iff _ _)); [done|]. lia.
  - rewrite (proj2 (andb_false_iff _ _)); [done|]. lia.
Qed.

Lemma indice_Val_subscrito n i k :
  indice n i = Val k → (- Z.of_nat n ≤ i < Z.of_nat n)%Z.
Proof.
  intros H. destruct (decide (- Z.of_nat n ≤ i < Z.of_nat n)%Z); [done|].
  by rewrite indice_fora in H.
Qed.

Lemma le_Val linhas colunas mm p :
  forma linhas colunas mm → subscrito linhas colunas p →
  ∃ x, le mm p.1 p.2 = Val x.
Proof.
  intros Hf [Hr Hc]. unfold le, item.
  destruct (indice_subscrito _ _ Hr) as [i Hi]. rewrite (proj1 Hf), Hi.
  simpl. pose proof Hi as [Hlt _]%indice_Val.
  destruct (lookup_lt_is_Some_2 mm i) as [linha Hl];
    [by rewrite (proj1 Hf)|].
  rewrite Hl. simpl. rewrite (forma_linha _ _ _ _ _ Hf Hl).
  destruct (indice_subscrito _ _ Hc) as [j Hj]. rewrite Hj. simpl.
  pose proof Hj as [Hjlt _]%indice_Val.
  destruct (lookup_lt_is_Some_2 linha j) as [x Hx];
    [by rewrite (forma_linha _ _ _ _ _ Hf Hl)|].
  rewrite Hx. eauto.
Qed.

Lemma le_fora linhas colunas mm p :
  forma linhas colunas mm → ¬ subscrito linhas colunas p →
  le mm p.1 p.2 = IndexError.
Proof.
  intros Hf Hp. unfold le, item. rewrite (proj1 Hf).
  destruct (decide (- Z.of_nat linhas ≤ p.1 < Z.of_nat linhas)%Z) as [Hr|Hr];
    [|by rewrite indice_fora].
  destruct (indice_subscrito _ _ Hr) as [i Hi]. rewrite Hi. simpl.
  destruct (mm !! i) as [linha|] eqn:Hl; [|done]. simpl.
  rewrite (forma_linha _ _ _ _ _ Hf Hl), indice_fora; [done|].
  intros Hc. by apply Hp.
Qed.

Lemma atribui_Val linhas colunas mm p v :
  forma linhas colunas mm → subscrito linhas colunas p →
  ∃ mm', atribui mm p.1 p.2 v = Val mm' ∧ forma linhas colunas mm'.
Proof.
  intros Hf [Hr Hc]. unfold atribui, item. rewrite (proj1 Hf).
  destruct (indice_subscrito _ _ Hr) as [i Hi]. rewrite Hi. simpl.
  pose proof Hi as [Hlt _]%indice_Val.
  destruct (lookup_lt_is_Some_2 mm i) as [linha Hl];
    [by rewrite (proj1 Hf)|].
  rewrite Hl. simpl. rewrite (forma_linha _ _ _ _ _ Hf Hl).
  destruct (indice_subscrito _ _ Hc) as [j Hj]. rewrite Hj. simpl.
  eexists. split; [done|]. destruct Hf as [Hf1 Hf2].
  split; [by rewrite length_insert|].
  apply Forall_insert; [done|]. rewrite length_insert.
  rewrite Forall_forall in Hf2. by eapply Hf2, list_elem_of_lookup_2.
Qed.

(** Two matrices of the same shape with the same entries are equal. *)
Lemma forma_eq linhas colunas (a b : matriz) :
  forma linhas colunas a → forma linhas colunas b →
  (∀ i j, i < linhas → j < colunas → celula a i j = celula b i j) →
  a = b.
Proof.
  intros Ha Hb Hcel. apply list_eq. intros i.
  destruct (decide (i < linhas)) as [Hi|Hi]; last first.
  { rewrite !lookup_ge_None_2; [done|rewrite (proj1 Hb)|rewrite (proj1 Ha)];
      lia. }
  destruct (lookup_lt_is_Some_2 a i) as [la Hla]; [by rewrite (proj1 Ha)|].
  destruct (lookup_lt_is_Some_2 b i) as [lb Hlb]; [by rewrite (proj1 Hb)|].
  rewrite Hla, Hlb. f_equal. apply list_eq. intros j.
  pose proof (forma_linha _ _ _ _ _ Ha Hla) as Hlena.
  pose proof (forma_linha _ _ _ _ _ Hb Hlb) as Hlenb.
  destruct (decide (j < colunas)) as [Hj|Hj].
  - specialize (Hcel i j Hi Hj). unfold celula in Hcel.
    by rewrite Hla, Hlb in Hcel.
  - rewrite !lookup_ge_None_2; [done|lia..].
Qed.

Lemma preenche_spec m linhas colunas f mm :
  preenche m linhas colunas f = Val mm →
  forma linhas colunas mm ∧
  ∀ i j, i < linhas → j < colunas →
    ∃ ch, marca m (Z.of_nat i) (Z.of_nat j) = Val ch ∧
          celula mm i j = Some (f ch (Z.of_nat i, Z.of_nat j)).
Proof.
  unfold preenche.
  rewrite (for_each_celulas _ _
             (fun r c mm => ch ← marca m r c; atribui mm r c (f ch (r, c)))).
  intros Hrun.
  apply (for_each_inv
           (fun done mm =>
              forma linhas colunas mm ∧
              ∀ i j, (Z.of_nat i, Z.of_nat j) ∈ done →
                ∃ ch, marca m (Z.of_nat i) (Z.of_nat j) = Val ch ∧
                      celula mm i j
                      = Some (f ch (Z.of_nat i, Z.of_nat j)))) in Hrun.
  - destruct Hrun as [Hf Hc]. split; [done|]. intros i j Hi Hj.
    apply Hc, elem_of_celulas, dentro_spec. simpl. lia.
  - split; [apply forma_zeros|]. by intros i j ?%elem_of_nil.
  - intros done x t t' [Hf Hc] Hx (ch & Hch & Hat)%bind_Val.
    destruct (atribui_spec _ _ _ _ _ _ _ Hf Hat)
      as (i & j & Hi & Hj & Hf' & Hv & Hoth).
    apply elem_of_celulas, dentro_spec in Hx.
    rewrite indice_nonneg in Hi, Hj by lia.
    injection Hi as <-. injection Hj as <-.
    split; [done|]. intros i j Hij.
    destruct (decide ((i, j) = (Z.to_nat x.1, Z.to_nat x.2))) as [Heq|Hne].
    + injection Heq as -> ->. rewrite !Z2Nat.id by lia.
      exists ch. by destruct x.
    + rewrite Hoth by done. apply Hc.
      apply elem_of_app in Hij as [Hij|Hij%list_elem_of_singleton]; [done|].
      subst x. cbn [fst snd] in Hne. by rewrite !Nat2Z.id in Hne.
Qed.

Lemma for_each_Val_inv {A S} (I : S → Prop) (xs : list A)
    (body : A → S → res S) s :
  I s →
  (∀ x t, x ∈ xs → I t → ∃ t', body x t = Val t' ∧ I t') →
  ∃ s', for_each xs body s = Val s' ∧ I s'.
Proof.
  revert s. induction xs as [|x xs IH]; intros s Hs Hb; simpl; [eauto|].
  destruct (Hb x s) as (t & Ht & HIt); [set_solver|done|].
  rewrite Ht. simpl. apply IH; [done|]. intros. apply Hb; [set_solver|done].
Qed.

Lemma preenche_Val m linhas colunas f :
  (∀ p, dentro linhas colunas p = true → ∃ ch, marca m p.1 p.2 = Val ch) →
  ∃ mm, preenche m linhas colunas f = Val mm.
Proof.
  intros Hleg. unfold preenche.
  rewrite (for_each_celulas _ _
             (fun r c mm => ch ← marca m r c; atribui mm r c (f ch (r, c)))).
  destruct (for_each_Val_inv (forma linhas colunas)
              (celulas linhas colunas)
              (fun p mm => ch ← marca m p.1 p.2;
                           atribui mm p.1 p.2 (f ch (p.1, p.2)))
              (zeros linhas colunas)) as (mm & Hmm & _);
    [apply forma_zeros| |eauto].
  intros x t Hx%elem_of_celulas Hf.
  destruct (Hleg x Hx) as [ch Hch]. rewrite Hch. simpl.
  apply atribui_Val; [done|]. apply dentro_spec in Hx. split; lia.
Qed.

End MatrizFacts.

Import PlotFacts MatrizFacts.

(** ** The snapshot matrix *)

Lemma plotar_mapa_snapshot_preenche m vis t pa de :
  m ≠ [] →
  plotar_mapa_snapshot m vis t (pa, de)
  = preenche m (length m) (n_colunas m) (classe_snapshot vis pa de).
Proof.
  intros Hm. unfold plotar_mapa_snapshot, n_colunas.
  destruct m as [|linha0 m]; [done|]. by rewrite (proj2 (item_0 _ linha0)).
Qed.

(** X11. In the matrix of a snapshot an entry is 1 when its marker is
    ['#'], otherwise 2 at the start coordinate, otherwise 3 at the goal
    coordinate, otherwise 4 when the cell is in the visited set and 0 when
    it is not; the matrix has the shape of the map. *)
Theorem classes_do_snapshot (m : mapa) (vis : gset coord) (t : Z)
    (pa de : option coord) (mm : matriz) :
  plotar_mapa_snapshot m vis t (pa, de) = Val mm →
  forma (length m) (n_colunas m) mm ∧
  ∀ i j, i < length m → j < n_colunas m →
    ∃ ch, marca m (Z.of_nat i) (Z.of_nat j) = Val ch ∧
          celula mm i j
          = Some (if decide (ch = "#") then 1%Z
                  else if decide (Some (Z.of_nat i, Z.of_nat j) = pa) then 2%Z
                  else if decide (Some (Z.of_nat i, Z.of_nat j) = de) then 3%Z
                  else if decide ((Z.of_nat i, Z.of_nat j) ∈ vis) then 4%Z
                  else 0%Z).
Proof.
  intros Hrun. assert (m ≠ []) as Hm by (by intros ->).
  rewrite plotar_mapa_snapshot_preenche in Hrun by done.
  by apply preenche_spec in Hrun.
Qed.

Lemma classes_do_snapshot_witness :
  forma (length mapa3) (n_colunas mapa3)
    [[2; 4; 1]; [4; 1; 0]; [0; 0; 3]]%Z ∧
  ∀ i j, i < length mapa3 → j < n_colunas mapa3 →
    ∃ ch, marca mapa3 (Z.of_nat i) (Z.of_nat j) = Val ch ∧
          celula [[2; 4; 1]; [4; 1; 0]; [0; 0; 3]]%Z i j
          = Some (if decide (ch = "#") then 1%Z
                  else if decide (Some (Z.of_nat i, Z.of_nat j)
                                  = Some (0, 0)%Z) then 2%Z
                  else if decide (Some (Z.of_nat i, Z.of_nat j)
                                  = Some (2, 2)%Z) then 3%Z
                  else if decide ((Z.of_nat i, Z.of_nat j)
                                  ∈ ({[ (0, 0); (0, 1); (1, 0) ]}
                                       : gset coord))%Z then 4%Z
                  else 0%Z).
Proof.
  apply (classes_do_snapshot mapa3 ({[ (0, 0); (0, 1); (1, 0) ]})%Z 2
           (Some (0, 0)%Z) (Some (2, 2)%Z)).
  vm_compute. reflexivity.
Defined.

(** X12. The frames of a search only grow: between the matrix of a
    snapshot and that of a later snapshot of the same search, the entries
    that change are entries 0 that become 4, the cells visited in
    between. *)
Theorem quadros_progressivos (m : mapa) (st : estado) (i j : nat)
    (a b : gset coord) (t t' : Z) (pa de : option coord) (fa fb : matriz) :
  busca m = Val (Some st) →
  exploration_snapshots st !! i = Some a →
  exploration_snapshots st !! j = Some b → i ≤ j →
  plotar_mapa_snapshot m a t (pa, de) = Val fa →
  plotar_mapa_snapshot m b t' (pa, de) = Val fb →
  ∀ r c x, celula fa r c = Some x →
    celula fb r c
    = Some (if decide (x = 0%Z ∧ (Z.of_nat r, Z.of_nat c) ∈ b)
            then 4%Z else x).
Proof.
  intros (partida & destino & _ & _ & Hpar)%busca_Some Ha Hb Hij Hfa Hfb.
  pose proof (parada_fotos _ _ _ _ _ _ Hpar) as (_ & _ & Hcad).
  pose proof (Hcad i j a b Hij Ha Hb) as Hsub.
  assert (m ≠ []) as Hm by (intros ->; done).
  rewrite plotar_mapa_snapshot_preenche in Hfa, Hfb by done.
  apply preenche_spec in Hfa as [Hforma Hfa], Hfb as [_ Hfb].
  intros r c x Hx.
  assert (r < length m ∧ c < n_colunas m) as [Hr Hc].
  { unfold celula in Hx. destruct (fa !! r) as [linha|] eqn:Hl; [|done].
    simpl in Hx. pose proof (forma_linha _ _ _ _ _ Hforma Hl).
    apply lookup_lt_Some in Hx. apply lookup_lt_Some in Hl.
    rewrite (proj1 Hforma) in Hl. lia. }
  destruct (Hfa r c Hr Hc) as (ch & Hch & Hva).
  destruct (Hfb r c Hr Hc) as (ch' & Hch' & Hvb).
  rewrite Hch in Hch'. injection Hch' as <-.
  rewrite Hx in Hva. injection Hva as ->. rewrite Hvb. f_equal.
  unfold classe_snapshot. repeat case_decide; try done; set_solver.
Qed.

Lemma quadros_progressivos_witness :
  celula [[2; 4; 1]; [4; 1; 0]; [4; 4; 3]]%Z 1 0
  = Some (if decide (0%Z = 0%Z ∧
                     (Z.of_nat 1, Z.of_nat 0)
                     ∈ default ∅ (exploration_snapshots estado_mapa3 !! 1))
          then 4%Z else 0%Z).
Proof.
  apply (quadros_progressivos mapa3 estado_mapa3 0 1
           (default ∅ (exploration_snapshots estado_mapa3 !! 0))
           (default ∅ (exploration_snapshots estado_mapa3 !! 1))
           1 2 (Some (0, 0)%Z) (Some (2, 2)%Z)
           [[2; 0; 1]; [0; 1; 0]; [0; 0; 3]]%Z).
  - vm_compute. reflexivity.
  - vm_compute. reflexivity.
  - vm_compute. reflexivity.
  - lia.
  - vm_compute. reflexivity.
  - vm_compute. reflexivity.
  - reflexivity.
Defined.

(** ** The final matrix: subscripts and order *)

Lemma pinta_lista_Val linhas colunas (cond : Z → bool) v l0 mm :
  forma linhas colunas mm → Forall (subscrito linhas colunas) l0 →
  ∃ mm',
    for_each l0
      (fun p mm => x ← le mm p.1 p.2;
                   if cond x then atribui mm p.1 p.2 v else Val mm) mm
    = Val mm'.
Proof.
  intros Hf Hl.
  destruct (for_each_Val_inv (forma linhas colunas) l0
              (fun p mm => x ← le mm p.1 p.2;
                           if cond x then atribui mm p.1 p.2 v else Val mm)
              mm) as (mm' & Hmm & _); [done| |eauto].
  intros p t Hp Ht. rewrite Forall_forall in Hl.
  destruct (le_Val _ _ t p Ht (Hl p Hp)) as [x Hx]. rewrite Hx. simpl.
  destruct (cond x); [|eauto]. by apply atribui_Val, Hl.
Qed.

Lemma pinta_lista_fora linhas colunas (cond : Z → bool) v l0 mm :
  forma linhas colunas mm → ¬ Forall (subscrito linhas colunas) l0 →
  for_each l0
    (fun p mm => x ← le mm p.1 p.2;
                 if cond x then atribui mm p.1 p.2 v else Val mm) mm
  = IndexError.
Proof.
  revert mm. induction l0 as [|p l0 IH]; intros mm Hf Hl.
  { destruct Hl. constructor. }
  simpl. destruct (decide (subscrito linhas colunas p)) as [Hp|Hp].
  - destruct (le_Val _ _ mm p Hf Hp) as [x Hx]. rewrite Hx. simpl.
    assert (¬ Forall (subscrito linhas colunas) l0) as Hl0
      by (intros ?; apply Hl; by constructor).
    destruct (cond x).
    + destruct (atribui_Val _ _ mm p v Hf Hp) as (mm' & -> & Hf').
      simpl. by apply IH.
    + simpl. by apply IH.
  - by rewrite (le_fora _ _ _ _ Hf Hp).
Qed.

(** A painting pass raises exactly when a pair of the sequence is not a
    valid subscript. *)
Lemma pinta_resultado linhas colunas (cond : Z → bool) v cells mm :
  forma linhas colunas mm →
  if decide (Forall (subscrito linhas colunas) (default [] cells))
  then ∃ mm', pinta cond v cells mm = Val mm'
  else pinta cond v cells mm = IndexError.
Proof.
  intros Hf. case_decide as Hl.
  - destruct cells as [[|p l0]|]; unfold pinta; [eauto| |eauto].
    by eapply pinta_lista_Val.
  - destruct cells as [[|p l0]|]; unfold pinta;
      [destruct Hl; constructor| |destruct Hl; constructor].
    by eapply pinta_lista_fora.
Qed.

Lemma atinge_mesmos linhas colunas (l1 l2 : list coord) i j :
  (∀ x, x ∈ l1 ↔ x ∈ l2) →
  atinge linhas colunas (Some l1) i j ↔ atinge linhas colunas (Some l2) i j.
Proof.
  intros H. unfold atinge. simpl. rewrite !Exists_exists. naive_solver.
Qed.

Lemma pinta_mesmos linhas colunas (cond : Z → bool) v (l1 l2 : list coord)
    mm :
  cond v = false → forma linhas colunas mm →
  (∀ x, x ∈ l1 ↔ x ∈ l2) →
  pinta cond v (Some l1) mm = pinta cond v (Some l2) mm.
Proof.
  intros Hv Hf Hmesmos.
  pose proof (pinta_resultado linhas colunas cond v (Some l1) mm Hf) as H1.
  pose proof (pinta_resultado linhas colunas cond v (Some l2) mm Hf) as H2.
  change (default [] (Some l1)) with l1 in H1.
  change (default [] (Some l2)) with l2 in H2.
  assert (Forall (subscrito linhas colunas) l1 ↔
          Forall (subscrito linhas colunas) l2) as Hiff
    by (rewrite !Forall_forall; naive_solver).
  destruct (decide (Forall (subscrito linhas colunas) l1)) as [Hl1|Hl1].
  - rewrite decide_True in H2 by tauto.
    destruct H1 as [m1 H1], H2 as [m2 H2]. rewrite H1, H2. f_equal.
    destruct (pinta_spec _ _ _ _ _ _ _ Hv Hf H1) as [Hf1 Hc1].
    destruct (pinta_spec _ _ _ _ _ _ _ Hv Hf H2) as [Hf2 Hc2].
    apply (forma_eq linhas colunas); [done..|]. intros i j Hi Hj.
    destruct (celula mm i j) as [x|] eqn:Hx.
    + rewrite (Hc1 _ _ _ Hx), (Hc2 _ _ _ Hx). f_equal.
      apply decide_ext. by rewrite (atinge_mesmos _ _ l1 l2).
    + exfalso. unfold celula in Hx.
      destruct (lookup_lt_is_Some_2 mm i) as [linha Hl];
        [by rewrite (proj1 Hf)|].
      rewrite Hl in Hx. simpl in Hx. apply lookup_ge_None_1 in Hx.
      rewrite (forma_linha _ _ _ _ _ Hf Hl) in Hx. lia.
  - rewrite decide_False in H2 by tauto. by rewrite H1, H2.
Qed.

(** X13. The final matrix depends on [final_visited_cells] only through
    the set of its pairs: two sequences with the same pairs, in whatever
    order and with whatever repetitions, give the same matrix or both
    raise. *)
Theorem visitadas_em_qualquer_ordem (m : mapa) (ri : option rota)
    (desc : option (list rota)) (l1 l2 : list coord) :
  (∀ x, x ∈ l1 ↔ x ∈ l2) →
  plotar_mapa_final m ri desc (Some l1)
  = plotar_mapa_final m ri desc (Some l2).
Proof.
  intros Hmesmos. unfold plotar_mapa_final.
  destruct (item m 0) as [linha0| |]; [|done..]. cbn [mbind res_bind].
  destruct (base m (length m) (length linha0)) as [mm0| |] eqn:Hbase;
    [|done..]. cbn [mbind res_bind].
  apply base_spec in Hbase as [Hf _].
  by rewrite (pinta_mesmos (length m) (length linha0) _ _ l1 l2 mm0).
Qed.

Lemma visitadas_em_qualquer_ordem_witness :
  plotar_mapa_final mapa3 (Some [(0, 0); (1, 0)]%Z) None
    (Some [(0, 1); (1, 0); (0, 1)]%Z)
  = plotar_mapa_final mapa3 (Some [(0, 0); (1, 0)]%Z) None
      (Some [(1, 0); (0, 1)]%Z).
Proof.
  apply visitadas_em_qualquer_ordem. intros x.
  rewrite !elem_of_cons, !elem_of_nil. tauto.
Defined.

Lemma base_Val m :
  (∀ p, dentro (length m) (n_colunas m) p = true →
        ∃ ch, marca m p.1 p.2 = Val ch) →
  ∃ mm0, base m (length m) (n_colunas m) = Val mm0 ∧
         forma (length m) (n_colunas m) mm0.
Proof.
  intros Hleg.
  destruct (preenche_Val m (length m) (n_colunas m) (fun ch _ => classe ch))
    as [mm0 Hmm0]; [done|].
  exists mm0. split; [done|]. by apply base_spec in Hmm0 as [? _].
Qed.

Lemma plotar_mapa_final_unfold m ri desc vis :
  m ≠ [] →
  plotar_mapa_final m ri desc vis =
  mm ← base m (length m) (n_colunas m);
  mm ← pinta (fun x => bool_decide (x = 0%Z)) 5 vis mm;
  pinta (fun x => bool_decide (x = 0%Z) || bool_decide (x = 5%Z)) 4 ri mm.
Proof.
  intros Hm. unfold plotar_mapa_final, n_colunas.
  destruct m as [|linha0 m]; [done|]. by rewrite (proj2 (item_0 _ linha0)).
Qed.

(** On a map that can be read, the final matrix exists exactly when all
    the pairs it is asked to paint are valid subscripts. *)
Lemma plotar_mapa_final_resultado m ri desc vis :
  m ≠ [] →
  (∀ p, dentro (length m) (n_colunas m) p = true →
        ∃ ch, marca m p.1 p.2 = Val ch) →
  let validos :=
    Forall (subscrito (length m) (n_colunas m)) (default [] vis) ∧
    Forall (subscrito (length m) (n_colunas m)) (default [] ri) in
  (validos → ∃ mm, plotar_mapa_final m ri desc vis = Val mm ∧
                   forma (length m) (n_colunas m) mm) ∧
  (¬ validos → plotar_mapa_final m ri desc vis = IndexError).
Proof.
  intros Hm Hleg validos. rewrite plotar_mapa_final_unfold by done.
  destruct (base_Val m Hleg) as (mm0 & -> & Hf0). cbn [mbind res_bind].
  pose proof (pinta_resultado (length m) (n_colunas m)
                (fun x => bool_decide (x = 0%Z)) 5 vis mm0 Hf0) as H1.
  destruct (decide (Forall (subscrito (length m) (n_colunas m))
                      (default [] vis))) as [Hvis|Hvis].
  - destruct H1 as [mm1 H1]. rewrite H1. cbn [mbind res_bind].
    apply pinta_spec with (linhas := length m) (colunas := n_colunas m)
      in H1 as [Hf1 _]; [|done..].
    pose proof (pinta_resultado (length m) (n_colunas m)
                  (fun x => bool_decide (x = 0%Z) || bool_decide (x = 5%Z))
                  4 ri mm1 Hf1) as H2.
    destruct (decide (Forall (subscrito (length m) (n_colunas m))
                        (default [] ri))) as [Hri|Hri].
    + destruct H2 as [mm2 H2]. split; [|by intros []].
      intros _. exists mm2. split; [done|].
      by apply pinta_spec with (linhas := length m) (colunas := n_colunas m)
        in H2 as [? _].
    + split; [by intros [_ ?]|done].
  - rewrite H1. split; [by intros [? _]|done].
Qed.

(** X14. On a grid, [plotar_mapa_final] raises [IndexError] exactly when
    a pair of [final_visited_cells] or of [rota_ideal] is not a valid
    subscript of the matrix, a negative coordinate down to minus the size
    being valid; otherwise it gives a matrix of the shape of the map. *)
Theorem subscritos_do_mapa_final (m : mapa) (ri : option rota)
    (desc : option (list rota)) (vis : option (list coord)) :
  grade m →
  let validos :=
    Forall (subscrito (length m) (n_colunas m)) (default [] vis) ∧
    Forall (subscrito (length m) (n_colunas m)) (default [] ri) in
  (validos → ∃ mm, plotar_mapa_final m ri desc vis = Val mm ∧
                   forma (length m) (n_colunas m) mm) ∧
  (¬ validos → plotar_mapa_final m ri desc vis = IndexError).
Proof.
  intros Hg. apply plotar_mapa_final_resultado; [apply Hg|].
  intros p. by apply grade_marca.
Qed.

Lemma subscritos_do_mapa_final_witness :
  let validos :=
    Forall (subscrito (length mapa3) (n_colunas mapa3))
      (default [] (Some [(-3, 0); (1, -1)]%Z)) ∧
    Forall (subscrito (length mapa3) (n_colunas mapa3))
      (default [] (Some [(0, 3)]%Z)) in
  (validos →
   ∃ mm, plotar_mapa_final mapa3 (Some [(0, 3)]%Z) None
           (Some [(-3, 0); (1, -1)]%Z) = Val mm ∧
         forma (length mapa3) (n_colunas mapa3) mm) ∧
  (¬ validos →
   plotar_mapa_final mapa3 (Some [(0, 3)]%Z) None
     (Some [(-3, 0); (1, -1)]%Z) = IndexError).
Proof.
  apply (subscritos_do_mapa_final mapa3 (Some [(0, 3)]%Z) None
           (Some [(-3, 0); (1, -1)]%Z)).
  apply (bool_decide_unpack _). vm_compute. exact I.
Defined.



Lemma dentro_subscrito linhas colunas p :
  dentro linhas colunas p = true → subscrito linhas colunas p.
Proof. intros [? ?]%dentro_spec. split; lia. Qed.

(** ** The script *)

Import Principal.

Lemma for_each_ext {A S} (xs : list A) (f g : A → S → res S) s :
  (∀ x t, f x t = g x t) → for_each xs f s = for_each xs g s.
Proof.
  intros H. revert s. induction xs as [|x xs IH]; intros s; simpl; [done|].
  rewrite H. destruct (g x s); simpl; auto.
Qed.

Lemma varredura_localiza m :
  m ≠ [] → varredura m = localiza m (length m) (n_colunas m).
Proof.
  intros Hm. unfold varredura, localiza, n_colunas.
  destruct m as [|linha0 m]; [done|]. apply for_each_ext. intros r pd.
  by rewrite (proj2 (item_0 (linha0 :: m) linha0)).
Qed.

(** A search that returned has read every cell of the map. *)
Lemma encontrar_legivel m out :
  encontrar_melhor_rota m = Val out →
  m ≠ [] ∧
  (∃ pd, localiza m (length m) (n_colunas m) = Val pd) ∧
  ∀ p, dentro (length m) (n_colunas m) p = true →
       ∃ ch, marca m p.1 p.2 = Val ch.
Proof.
  unfold encontrar_melhor_rota. intros (o & Hb & _)%bind_Val.
  assert (m ≠ []) as Hm by (by intros ->). split; [done|].
  rewrite busca_unfold in Hb by done.
  apply bind_Val in Hb as (pd & Hloc & _).
  split; [eauto|]. intros p. by eapply localiza_legivel.
Qed.

Lemma quadros_Val m pd snaps :
  (∀ p, dentro (length m) (n_colunas m) p = true →
        ∃ ch, marca m p.1 p.2 = Val ch) →
  m ≠ [] →
  ∃ qs, quadros m pd snaps = Val qs ∧
        length qs = length snaps ∧
        ∀ i s, snaps !! i = Some s →
          ∃ q, qs !! i = Some q ∧
               plotar_mapa_snapshot m s (Z.of_nat i + 1) pd = Val q.
Proof.
  intros Hleg Hm. unfold quadros.
  destruct (for_each_Val (imap (fun i s => (i, s)) snaps)
              (fun '(i, s) qs =>
                 mm ← plotar_mapa_snapshot m s (Z.of_nat i + 1) pd;
                 Val (qs ++ [mm])) []) as [qs Hqs].
  { intros [i s0] t _. destruct pd as [pa de].
    rewrite plotar_mapa_snapshot_preenche by done.
    destruct (preenche_Val m (length m) (n_colunas m)
                (classe_snapshot s0 pa de) Hleg) as [mm ->]. simpl. eauto. }
  exists qs. split; [done|].
  apply (for_each_inv
           (fun done qs =>
              length qs = length done ∧
              ∀ k i s, done !! k = Some (i, s) →
                ∃ q, qs !! k = Some q ∧
                     plotar_mapa_snapshot m s (Z.of_nat i + 1) pd = Val q))
    in Hqs.
  - destruct Hqs as [Hlen Hc]. rewrite length_imap in Hlen.
    split; [done|]. intros i s0 Hs. apply (Hc i i s0).
    by rewrite list_lookup_imap, Hs.
  - split; [done|]. intros k i s0 Hk. by rewrite lookup_nil in Hk.
  - intros done [i s0] t t' [Hlen Hc] _ (mm & Hmm & [= <-])%bind_Val.
    split; [rewrite !length_app; simpl; lia|].
    intros k i' s' Hk.
    destruct (decide (k < length done)) as [Hlt|Hge].
    + rewrite lookup_app_l in Hk by done. rewrite lookup_app_l by lia.
      by eapply Hc.
    + rewrite lookup_app_r in Hk by lia. rewrite lookup_app_r by lia.
      rewrite Hlen. destruct (k - length done) as [|n]; simpl in *;
        [|by rewrite lookup_nil in Hk].
      injection Hk as <- <-. eauto.
Qed.

(** When a route is found the last snapshot is the visited set, which
    holds the route; visited cells are inside the bounds. *)
Lemma parada_ultima_foto m linhas colunas partida destino st p :
  parada m linhas colunas partida destino st →
  rota_ideal st = Some p →
  p ≠ [] ∧
  ∃ final, last (exploration_snapshots st) = Some final ∧
    (∀ x, x ∈ p → x ∈ final) ∧
    (∀ x, x ∈ final → dentro linhas colunas x = true).
Proof.
  intros Hpar Hr.
  destruct (parada_rota _ _ _ _ _ _ _ Hpar Hr)
    as (st1 & resto & (He & _) & Hf & ->).
  assert (p ∈ percursos st1) as Hp
    by (unfold percursos; rewrite Hf; set_solver).
  split.
  { intros ->. by apply (ie_inicio _ _ _ _ _ He) in Hp. }
  exists (visitados st1). simpl. rewrite captura_chegada.
  rewrite decide_True by set_solver. rewrite last_snoc.
  split_and!; [done| |].
  - intros x Hx. by apply (ie_contido _ _ _ _ _ He p).
  - intros x Hx. destruct (ie_pontas _ _ _ _ _ He x Hx) as (q & Hq & Hl).
    pose proof (ie_livre _ _ _ _ _ He q Hq) as Hliv.
    rewrite Forall_forall in Hliv. by apply Hliv, last_Some_elem_of.
Qed.

(** The script, once the search has returned: the frames and, when there
    is a route, the final matrix painted from the last snapshot. *)
Lemma principal_spec m ri desc m' snaps :
  encontrar_melhor_rota m = Val (ri, desc, m', snaps) →
  ∃ pd qs,
    varredura m = Val pd ∧
    length qs = length snaps ∧
    (∀ i s, snaps !! i = Some s →
       ∃ q, qs !! i = Some q ∧
            plotar_mapa_snapshot m s (Z.of_nat i + 1) pd = Val q) ∧
    principal m =
    match ri with
    | Some (_ :: _) =>
      mf ← plotar_mapa_final m ri (Some desc)
             (Some (elements (default ∅ (last snaps))));
      Val (qs, Some mf)
    | _ => Val (qs, None)
    end.
Proof.
  intros Hrun. pose proof Hrun as (Hm & [pd Hloc] & Hleg)%encontrar_legivel.
  pose proof Hrun as [-> _]%encontrar_casos.
  destruct (quadros_Val m pd snaps Hleg Hm) as (qs & Hqs & Hlen & Hc).
  exists pd, qs. rewrite varredura_localiza by done.
  split_and!; [done..|].
  unfold principal. rewrite varredura_localiza, Hloc by done.
  cbn [mbind res_bind]. rewrite Hrun. cbn [mbind res_bind].
  rewrite Hqs. cbn [mbind res_bind]. done.
Qed.

(** X15. Whenever the search returns, the script runs to its end without
    raising: it draws one matrix per snapshot, the matrix of that
    snapshot titled with its rank from 1, and it draws the final matrix
    exactly when a route was found. *)
Theorem script_sem_erro (m : mapa) (ri : option rota) (desc : list rota)
    (m' : mapa) (snaps : list (gset coord)) :
  encontrar_melhor_rota m = Val (ri, desc, m', snaps) →
  ∃ pd qs fin,
    varredura m = Val pd ∧
    principal m = Val (qs, fin) ∧
    length qs = length snaps ∧
    (∀ i s, snaps !! i = Some s →
       ∃ q, qs !! i = Some q ∧
            plotar_mapa_snapshot m s (Z.of_nat i + 1) pd = Val q) ∧
    (is_Some fin ↔ is_Some ri).
Proof.
  intros Hrun.
  destruct (principal_spec _ _ _ _ _ Hrun) as (pd & qs & Hv & Hlen & Hq & Hp).
  exists pd, qs. rewrite Hp.
  destruct ri as [p|]; last first.
  { exists None. split_and!; [done..|]. split; by intros [? ?]. }
  pose proof Hrun as (Hm & _ & Hleg)%encontrar_legivel.
  pose proof Hrun as [_ [(_ & [=] & _)|(partida & destino & st & _ & _ & _
                                        & Hpar & Hr & _ & ->)]]%encontrar_casos.
  symmetry in Hr.
  destruct (parada_ultima_foto _ _ _ _ _ _ _ Hpar Hr)
    as (Hne & final & Hlast & Hrota & Hdentro).
  rewrite Hlast. simpl.
  destruct (plotar_mapa_final_resultado m (Some p) (Some desc)
              (Some (elements final)) Hm Hleg) as [Hok _].
  destruct Hok as (mf & Hmf & _).
  { simpl. split; apply Forall_forall; intros x Hx;
      apply dentro_subscrito, Hdentro; [set_solver|by apply Hrota]. }
  destruct p as [|x p]; [done|]. rewrite Hmf. simpl.
  exists (Some mf). split_and!; [done..|]. split; eauto.
Qed.

Lemma script_sem_erro_witness :
  ∃ pd qs fin,
    varredura mapa3 = Val pd ∧
    principal mapa3 = Val (qs, fin) ∧
    length qs = length saida_mapa3.2 ∧
    (∀ i s, saida_mapa3.2 !! i = Some s →
       ∃ q, qs !! i = Some q ∧
            plotar_mapa_snapshot mapa3 s (Z.of_nat i + 1) pd = Val q) ∧
    (is_Some fin ↔ is_Some saida_mapa3.1.1.1).
Proof.
  apply (script_sem_erro mapa3 saida_mapa3.1.1.1 saida_mapa3.1.1.2
           saida_mapa3.1.2 saida_mapa3.2).
  vm_compute. reflexivity.
Defined.



(** ** The order and the shape of the explored segments *)

Lemma StronglySorted_sublist {A} (R : relation A) (l1 l2 : list A) :
  l1 `sublist_of` l2 → StronglySorted R l2 → StronglySorted R l1.
Proof.
  induction 1 as [|x l1 l2 Hsub IH|x l1 l2 Hsub IH];
    intros Hs; [constructor| |].
  - apply StronglySorted_cons in Hs as [Hx Hs].
    constructor; [by apply IH|].
    rewrite Forall_forall in Hx |- *. intros y Hy.
    by eapply Hx, elem_of_sublist.
  - apply StronglySorted_cons in Hs as [_ Hs]. by apply IH.
Qed.

Lemma em_niveis_avanca m linhas colunas partida destino st r c (p : rota)
    (resto : list entrada) :
  inv m linhas colunas partida destino st → em_niveis st →
  fila st = (r, c, p) :: resto →
  let ns := novos m linhas colunas (visitados st) (r, c) in
  em_niveis
    (avanca st p (captura st r c destino)
       (list_to_set ns ∪ visitados st) (resto ++ (estende p <$> ns))).
Proof.
  intros (_ & Ho & _) Hs Hf ns. subst ns. unfold em_niveis.
  rewrite (percursos_avanca m linhas colunas destino st r c p resto Hf).
  assert (∀ e : rota,
            e ∈ (fun n => p ++ [n]) <$>
                novos m linhas colunas (visitados st) (r, c) →
            length e = S (length p)) as Hnovo.
  { intros e (n & -> & _)%list_elem_of_fmap. rewrite length_app. simpl. lia. }
  apply StronglySorted_app. split_and!; [|done|].
  - intros x y Hx Hy. cbv beta. rewrite (Hnovo y Hy).
    apply (io_nivel _ _ _ _ _ _ Ho (r, c, p)); [by rewrite Hf|done].
  - revert Hnovo. generalize ((fun n => p ++ [n]) <$>
                     novos m linhas colunas (visitados st) (r, c)).
    intros l Hl. induction l as [|e l IH]; constructor.
    + apply IH. intros. apply Hl. set_solver.
    + apply Forall_forall. intros y Hy. cbv beta.
      rewrite (Hl e), (Hl y) by set_solver. done.
Qed.

(** X17. The discarded segments are returned in non-decreasing order of
    length, the order in which the search left the start, and none is
    longer than the route found. *)
Theorem descartadas_por_comprimento (m : mapa) (ri : option rota)
    (desc : list rota) (m' : mapa) (snaps : list (gset coord)) :
  encontrar_melhor_rota m = Val (ri, desc, m', snaps) →
  StronglySorted (fun a b : rota => length a ≤ length b) desc ∧
  ∀ p seg, ri = Some p → seg ∈ desc → length seg ≤ length p.
Proof.
  intros [_ [(_ & _ & -> & _)|(partida & destino & st & Hp & Hd & Hb & _
                               & -> & -> & _)]]%encontrar_casos.
  { split; [constructor|]. by intros p seg _ ?%elem_of_nil. }
  assert (StronglySorted (fun a b : rota => length a ≤ length b)
            (todos_segmentos_explorados st) ∧
          ∀ p seg, rota_ideal st = Some p →
                   seg ∈ todos_segmentos_explorados st →
                   length seg ≤ length p) as [Hs Hmax].
  { destruct (busca_invariante em_niveis m partida destino st)
      as [(Hinv & Hniv & Hf)|(st1 & p & resto & Hinv & Hniv & Hf & ->)];
      [done..| | | |].
    - unfold em_niveis, percursos. simpl. repeat constructor.
    - intros st0 r c p resto Hinv HJ Hf _. by eapply em_niveis_avanca.
    - unfold em_niveis, percursos in Hniv. rewrite Hf, app_nil_r in Hniv.
      split; [done|]. intros p seg Hr.
      destruct Hinv as (He & _). by rewrite (ie_rota _ _ _ _ _ He) in Hr.
    - unfold em_niveis, percursos in Hniv. rewrite Hf, fmap_cons in Hniv.
      cbn [snd] in Hniv. simpl.
      replace (todos_segmentos_explorados st1 ++ p :: (snd <$> resto))
        with ((todos_segmentos_explorados st1 ++ [p]) ++ (snd <$> resto))
        in Hniv by (by rewrite <- app_assoc).
      apply StronglySorted_app_1_l in Hniv.
      split; [done|]. intros p' seg [= <-].
      intros [Hseg| ->%list_elem_of_singleton]%elem_of_app; [|done].
      apply StronglySorted_app in Hniv as (Hniv & _ & _).
      apply Hniv; [done|set_solver]. }
  split.
  - eapply StronglySorted_sublist; [apply filtra_descartadas_sublist|done].
  - intros p seg Hr Hseg%filtra_descartadas_elem_of. by apply Hmax.
Qed.

Lemma descartadas_por_comprimento_witness :
  StronglySorted (fun a b : rota => length a ≤ length b)
    saida_murado.1.1.2 ∧
  ∀ p seg, saida_murado.1.1.1 = Some p → seg ∈ saida_murado.1.1.2 →
           length seg ≤ length p.
Proof.
  apply (descartadas_por_comprimento mapa_murado saida_murado.1.1.1
           saida_murado.1.1.2 saida_murado.1.2 saida_murado.2).
  vm_compute. reflexivity.
Defined.

Lemma arvore_avanca m linhas colunas destino st r c (p : rota)
    (resto : list entrada) :
  arvore st → fila st = (r, c, p) :: resto →
  let ns := novos m linhas colunas (visitados st) (r, c) in
  arvore
    (avanca st p (captura st r c destino)
       (list_to_set ns ∪ visitados st) (resto ++ (estende p <$> ns))).
Proof.
  intros Ha Hf ns e e' n. subst ns.
  rewrite (percursos_avanca m linhas colunas destino st r c p resto Hf).
  simpl. intros [He|(n' & -> & _)%list_elem_of_fmap]%elem_of_app Heq Hne.
  - apply elem_of_app. left. by eapply Ha.
  - apply app_inj_tail in Heq as [-> _]. set_solver.
Qed.

(** X18. The explored segments form a tree rooted at the start: an
    explored segment of more than one cell is an explored segment
    extended by one cell, copy-on-extend. *)
Theorem segmentos_em_arvore (m : mapa) (st : estado) (seg e' : rota)
    (n : coord) :
  busca m = Val (Some st) →
  seg ∈ todos_segmentos_explorados st → seg = e' ++ [n] → e' ≠ [] →
  e' ∈ todos_segmentos_explorados st.
Proof.
  intros Hb Hseg Heq Hne.
  pose proof Hb as (partida & destino & _ & [Hp Hd]%localiza_ultima & _)
    %busca_Some.
  destruct (busca_invariante arvore m partida destino st)
    as [(Hinv & Ha & Hf)|(st1 & p & resto & Hinv & Ha & Hf & ->)];
    [done..| | | |].
  - intros e e0 n0 ->%list_elem_of_singleton Heq0 Hne0.
    destruct e0 as [|? [|? ?]]; simplify_eq.
  - intros st0 r c p resto _ HJ Hf _. by eapply arvore_avanca.
  - apply (Ha seg e' n); [|done..].
    unfold percursos. rewrite Hf. set_solver.
  - simpl in *. apply elem_of_app. left. apply (Ha seg e' n); [|done..].
    unfold percursos. rewrite Hf. set_solver.
Qed.

Lemma segmentos_em_arvore_witness :
  [(0, 0); (1, 0)]%Z ∈ todos_segmentos_explorados estado_mapa3.
Proof.
  apply (segmentos_em_arvore mapa3 estado_mapa3 [(0, 0); (1, 0); (2, 0)]%Z
           [(0, 0); (1, 0)]%Z (2, 0)%Z).
  - vm_compute. reflexivity.
  - apply (bool_decide_unpack _). vm_compute. exact I.
  - reflexivity.
  - discriminate.
Defined.
